(** * goset: the hash-backed set (hashset.go) over a store of Go maps

    [HashSet[T]] is [map[T]struct{}].  A Go map is a reference: two variables
    may name the same live map, and the in-place operations of the package
    range over a map while they delete from it.  The development therefore
    keeps a store of maps indexed by reference, and models [for ... range]
    over a map with the freedom the Go language gives it: the order of the
    keys is chosen by the runtime, a key deleted before it is reached is not
    produced, a key created during the loop may or may not be produced. *)

From stdpp Require Import gmap strings list fin_maps pretty.

(** ** The store *)

(** A reference to a live map. *)
Definition loc := positive.

Section HashSet.
(** [T comparable]: the element type.  Two keys are the same key exactly when
    they are equal, as [==] decides it on Go's comparable types (a key that
    differs from itself, a floating-point NaN, is outside this model). *)
Context {T : Type} `{Countable T}.

(** [type HashSet[T comparable] map[T]struct{}]: a map of type [gmap T ()];
    the store maps each live reference to its map. *)
Abbreviation heap := (gmap loc (gmap T ())).

(** The contents of the map a reference names (reading through a reference
    that names nothing reads an empty map, as reading a nil map does). *)
Definition deref (h : heap) (set : loc) : gmap T () := default ∅ (h !! set).

(** The keys of the map, which is what [range] and [maps.Keys] enumerate. *)
Definition keys (h : heap) (set : loc) : gset T := dom (deref h set).

(** A reference that names a map of the store, as [NewHashSet] returns.  The
    zero value of [HashSet] names none and "is NOT usable": the properties
    below are about live references. *)
Definition live (h : heap) (set : loc) : Prop := is_Some (h !! set).

(** [h'] is [h] except at the live reference [set], whose map now has
    exactly the keys [X]. *)
Definition changes_only (h : heap) (set : loc) (X : gset T) (h' : heap)
  : Prop :=
  (∀ l, l ≠ set → h' !! l = h !! l) ∧ live h' set ∧ keys h' set = X.

(** [h'] is [h] with one more map, at the new reference [newset], with
    exactly the keys [X]. *)
Definition allocates (h : heap) (newset : loc) (X : gset T) (h' : heap)
  : Prop :=
  h !! newset = None ∧ changes_only h newset X h'.

(** [make(HashSet[T])] *)
Definition NewHashSet (h : heap) : loc * heap :=
  let newset := fresh (dom h) in (newset, <[newset := ∅]> h).

(** [maps.Clone(set)]: a new map with the same entries. *)
Definition maps_Clone (set : loc) (h : heap) : loc * heap :=
  let newset := fresh (dom h) in (newset, <[newset := deref h set]> h).

(** [set[element] = struct{}{}] *)
Definition Add (set : loc) (element : T) (h : heap) : heap :=
  alter (λ m : gmap T (), <[element := ()]> m) set h.

(** [delete(set, element)] *)
Definition Remove (set : loc) (element : T) (h : heap) : heap :=
  alter (λ m : gmap T (), delete element m) set h.

(** [_, ok := set[element]; return ok] *)
Definition Contains (set : loc) (element : T) (h : heap) : bool :=
  match deref h set !! element with
  | Some _ => true
  | None => false
  end.

(** The set [newset] returned by an allocating operation owns its storage:
    the reference is new, every map that was in the store is as it was, and
    a later [Add] or [Remove] through [newset] reaches no other map, nor
    does one through another reference reach the map of [newset]. *)
Definition independent_result (h : heap) (newset : loc) (h' : heap) : Prop :=
  h !! newset = None ∧ live h' newset ∧
  (∀ l, l ≠ newset → h' !! l = h !! l) ∧
  (∀ l x, l ≠ newset →
     Add newset x h' !! l = h !! l ∧ Remove newset x h' !! l = h !! l ∧
     Add l x h' !! newset = h' !! newset ∧
     Remove l x h' !! newset = h' !! newset).

(** [len(set)]: a count of entries, far below the range of [int]. *)
Definition Len (set : loc) (h : heap) : nat := size (deref h set).

(** ** Ranging over a live map

    [range_from ks must created s] runs the loop when the runtime produces the
    keys [ks], in that order.  [must] holds the keys that were in the map
    when the loop started, have not been produced and have not been deleted:
    the loop cannot end before it has produced them.  [created] holds the keys
    created since the loop started: each may be produced or skipped.
    The result is [None] when [ks] is not an order the runtime can produce.
    The body either falls through to the next iteration ([inl]) or returns
    from the enclosing function ([inr]). *)
Section Range.
Context {St R : Type}.
Variable cur : St → gmap T ().
Variable body : T → St → St + R.

Definition must_after (must : gset T) (k : T) (s' : St) : gset T :=
  (must ∖ {[k]}) ∩ dom (cur s').

Definition created_after (created : gset T) (k : T) (s s' : St) : gset T :=
  ((created ∖ {[k]}) ∩ dom (cur s')) ∪ (dom (cur s') ∖ dom (cur s)).

Fixpoint range_from (ks : list T) (must created : gset T) (s : St)
  : option (St + R) :=
  match ks with
  | [] => if decide (must = ∅) then Some (inl s) else None
  | k :: ks' =>
      if decide (k ∈ must ∪ created) then
        match body k s with
        | inl s' =>
            range_from ks' (must_after must k s')
              (created_after created k s s') s'
        | inr r => Some (inr r)
        end
      else None
  end.

Definition range (ks : list T) (s : St) : option (St + R) :=
  range_from ks (dom (cur s)) ∅ s.

(** The bodies of hashset.go create no key in the map they range over and
    delete from it at most the key they were handed.  [body_ok I Q] says
    so, and that the body carries the invariant [I], indexed by the keys
    still to come, to the next iteration, or returns a value in [Q]. *)
Definition body_ok (I : gset T → St → Prop) (Q : R → Prop) : Prop :=
  ∀ must k s, I must s → must ⊆ dom (cur s) → k ∈ must →
    match body k s with
    | inl s' =>
        dom (cur s) ∖ {[k]} ⊆ dom (cur s') ∧ dom (cur s') ⊆ dom (cur s) ∧
        I (must ∖ {[k]}) s'
    | inr r => Q r
    end.
End Range.

(** A loop whose body has no [return]: it can only run to its end. *)
Definition range_all {St : Type} (cur : St → gmap T ())
    (body : T → St → St) (ks : list T) (s : St) : option St :=
  match range (R := Empty_set) cur (λ k s, inl (body k s)) ks s with
  | Some (inl s') => Some s'
  | Some (inr r) => match r with end
  | None => None
  end.

(** ** The operations of hashset.go

    Every operation that ranges over a map takes the order [ks] in which the
    runtime produces the keys; [set.All()] is [maps.Keys(set)], so ranging
    over it is ranging over the live map [set]. *)

Definition Union (ks : list T) (set other : loc) (h : heap)
  : option (loc * heap) :=
  let '(newset, h1) := maps_Clone set h in
  h2 ← range_all (λ s, deref s other)
                 (λ element s, Add newset element s) ks h1;
  Some (newset, h2).

Definition Intersection (ks : list T) (set other : loc) (h : heap)
  : option (loc * heap) :=
  let '(newset, h1) := NewHashSet h in
  h2 ← range_all (λ s, deref s other)
                 (λ element s,
                    if Contains set element s then Add newset element s
                    else s) ks h1;
  Some (newset, h2).

Definition Difference (ks : list T) (set other : loc) (h : heap)
  : option (loc * heap) :=
  let '(newset, h1) := NewHashSet h in
  h2 ← range_all (λ s, deref s set)
                 (λ element s,
                    if negb (Contains other element s)
                    then Add newset element s else s) ks h1;
  Some (newset, h2).

Definition SymmetricDifference (ks : list T) (set other : loc) (h : heap)
  : option (loc * heap) :=
  let '(newset, h1) := maps_Clone set h in
  h2 ← range_all (λ s, deref s other)
                 (λ element s,
                    if Contains newset element s
                    then Remove newset element s
                    else Add newset element s) ks h1;
  Some (newset, h2).

Definition Merge (ks : list T) (set other : loc) (h : heap) : option heap :=
  range_all (λ s, deref s other) (λ element s, Add set element s) ks h.

Definition Retain (ks : list T) (set other : loc) (h : heap) : option heap :=
  range_all (λ s, deref s set)
            (λ item s,
               if negb (Contains other item s) then Remove set item s else s)
            ks h.

Definition Subtract (ks : list T) (set other : loc) (h : heap)
  : option heap :=
  range_all (λ s, deref s set)
            (λ item s,
               if Contains other item s then Remove set item s else s)
            ks h.

Definition Xor (ks : list T) (set other : loc) (h : heap) : option heap :=
  range_all (λ s, deref s other)
            (λ element s,
               if Contains set element s then Remove set element s
               else Add set element s)
            ks h.

(** The loop shared by [Equals], [IsSuperset] and [IsSubset]:
    [for item := range set { if !other.Contains(item) { return false } }
     return true].  These loops only read the store. *)
Definition all_in_other (ks : list T) (set other : loc) (h : heap)
  : option bool :=
  match range (λ _ : (), deref h set)
              (λ item _,
                 if negb (Contains other item h) then inr false else inl ())
              ks () with
  | Some (inl _) => Some true
  | Some (inr r) => Some r
  | None => None
  end.

Definition Equals (ks : list T) (set other : loc) (h : heap) : option bool :=
  if decide (Len set h ≠ Len other h) then Some false
  else all_in_other ks set other h.

Definition IsSuperset (ks : list T) (set other : loc) (h : heap)
  : option bool :=
  if decide (Len set h < Len other h) then Some false
  else all_in_other ks set other h.

Definition IsSubset (ks : list T) (set other : loc) (h : heap)
  : option bool :=
  if decide (Len other h < Len set h) then Some false
  else all_in_other ks set other h.

Definition Elements (ks : list T) (set : loc) (h : heap) : option (list T) :=
  range_all (λ _ : list T, deref h set)
            (λ item elements, elements ++ [item]) ks [].

(** ** Loop invariants

    Each is indexed by [must], the keys the loop has still to produce. *)

(** [Union]: the clone has gained the keys of [other] produced so far. *)
Definition Union_inv (h : heap) (set other newset : loc) (must : gset T)
    (h' : heap) : Prop :=
  changes_only h newset (keys h set ∪ (keys h other ∖ must)) h'.

(** [Intersection]: the new set holds the keys of [other] produced so far that
    are in [set]. *)
Definition Intersection_inv (h : heap) (set other newset : loc)
    (must : gset T) (h' : heap) : Prop :=
  changes_only h newset (keys h set ∩ (keys h other ∖ must)) h'.

(** [Difference]: the new set holds the keys of [set] produced so far that are
    not in [other]. *)
Definition Difference_inv (h : heap) (set other newset : loc)
    (must : gset T) (h' : heap) : Prop :=
  changes_only h newset ((keys h set ∖ must) ∖ keys h other) h'.

(** [SymmetricDifference] and [Xor]: the keys of [other] produced so far have
    been toggled in the target. *)
Definition toggled (A B must : gset T) : gset T :=
  (A ∖ (B ∖ must)) ∪ ((B ∖ must) ∖ A).

Definition SymmetricDifference_inv (h : heap) (set other newset : loc)
    (must : gset T) (h' : heap) : Prop :=
  changes_only h newset (toggled (keys h set) (keys h other) must) h'.

(** [Merge]: the receiver has gained the keys of [other] produced so far. *)
Definition Merge_inv (h : heap) (set other : loc) (must : gset T) (h' : heap)
  : Prop :=
  changes_only h set (keys h set ∪ (keys h other ∖ must)) h'.

(** [Retain]: the receiver has lost its keys produced so far that are not in
    [other]. *)
Definition Retain_inv (h : heap) (set other : loc) (must : gset T) (h' : heap)
  : Prop :=
  changes_only h set (keys h set ∖ ((keys h set ∖ must) ∖ keys h other)) h'.

(** [Subtract]: the receiver has lost its keys produced so far that are in
    [other]. *)
Definition Subtract_inv (h : heap) (set other : loc) (must : gset T)
    (h' : heap) : Prop :=
  changes_only h set (keys h set ∖ ((keys h set ∖ must) ∩ keys h other)) h'.

Definition Xor_inv (h : heap) (set other : loc) (must : gset T) (h' : heap)
  : Prop :=
  changes_only h set (toggled (keys h set) (keys h other) must) h'.

(** The loop of [Equals], [IsSuperset] and [IsSubset]: the keys of [set]
    produced so far are all in [other]; it returns only [false], and only
    when some key of [set] is not in [other]. *)
Definition all_in_other_inv (h : heap) (set other : loc) (must : gset T)
    (_ : ()) : Prop :=
  keys h set ∖ must ⊆ keys h other.

Definition all_in_other_ret (h : heap) (set other : loc) (r : bool) : Prop :=
  r = false ∧ ¬ keys h set ⊆ keys h other.

(** [All]: [maps.Keys(set)], the iterator
    [func(yield func(T) bool) { for k := range set { if !yield(k) { return } } }].
    The consumer is the function [yield]: it turns its own state [St] into a
    new one and says whether it wants more.  [store] is the store as the
    consumer's state holds it, since the map is read live at every step. *)
Definition All {St : Type} (store : St → heap) (set : loc)
    (yield : T → St → St * bool) (ks : list T) (s : St) : option St :=
  match range (λ s, deref (store s) set)
              (λ k s, let '(s', more) := yield k s in
                      if more then inl s' else inr s') ks s with
  | Some (inl s') => Some s'
  | Some (inr s') => Some s'
  | None => None
  end.

(** A consumer of [All] that appends every key it is handed to a slice and
    lets [more] decide, from the key and the slice so far, whether to go on. *)
Definition collect (more : T → list T → bool) (k : T) (acc : list T)
  : list T * bool :=
  (acc ++ [k], more k acc).

(** [All] under [collect]: the slice holds, once each, the keys of [set] that
    are no longer to come; when the consumer stops, it holds keys of [set],
    once each. *)
Definition All_inv (h : heap) (set : loc) (must : gset T) (acc : list T)
  : Prop :=
  NoDup acc ∧ list_to_set acc = keys h set ∖ must.

Definition All_stop (h : heap) (set : loc) (acc : list T) : Prop :=
  NoDup acc ∧ acc ≠ [] ∧ ∀ x, x ∈ acc → x ∈ keys h set.

(** [strings.Join(elems, sep)] *)
Fixpoint strings_Join (elems : list string) (sep : string) : string :=
  match elems with
  | [] => ""%string
  | [e] => e
  | e :: rest => e +:+ sep +:+ strings_Join rest sep
  end.

(** [fmt.Sprintf("%v", item)], the generic conversion of an element. *)
Variable fmt_v : T → string.

Definition String (ks : list T) (set : loc) (h : heap) : option string :=
  elements ← range_all (λ _ : list string, deref h set)
                       (λ item elements, elements ++ [fmt_v item]) ks [];
  Some ("Set{" +:+ strings_Join elements ", " +:+ "}")%string.

End HashSet.

(** ** Sets of [int], as the package's tests build them *)

Local Open Scope Z_scope.

(** [fmt.Sprintf("%v", i)] on an [int]: the decimal numeral. *)
Definition fmt_int (i : Z) : string := pretty i.

(** [s := NewHashSet[int](); s.Add(x1); ...; s.Add(xn)] *)
Definition build (xs : list Z) (h : gmap loc (gmap Z ()))
  : loc * gmap loc (gmap Z ()) :=
  let '(s, h1) := NewHashSet h in (s, foldl (λ h' x, Add s x h') h1 xs).

(** One set built in an empty store. *)
Definition one_set (xs : list Z) : loc * gmap loc (gmap Z ()) := build xs ∅.

(** Two sets built one after the other in an empty store. *)
Definition two_sets (xs ys : list Z) : loc * loc * gmap loc (gmap Z ()) :=
  let '(a, h1) := build xs ∅ in
  let '(b, h2) := build ys h1 in (a, b, h2).

(** Equality of two sets of keys, by cases on whether an arbitrary key is
    the key [k] the loop body was handed. *)
Ltac set_at k :=
  let x := fresh "x" in
  apply set_eq; intros x; destruct (decide (x = k)) as [->|]; set_solver.

(** ** The store: reading after a write *)

Section StoreFacts.
Context {T : Type} `{Countable T}.
Implicit Types (h : gmap loc (gmap T ())) (m : gmap T ()) (set other : loc).

(** A map to [struct{}] is determined by its keys. *)
Lemma gomap_eq m1 m2 : dom m1 = dom m2 → m1 = m2.
Proof.
  intros Hdom. apply map_eq. intros k.
  destruct (m1 !! k) as [[]|] eqn:E1, (m2 !! k) as [[]|] eqn:E2; try done.
  - apply (elem_of_dom_2 m1) in E1. rewrite Hdom in E1.
    apply elem_of_dom in E1 as [? ?]. congruence.
  - apply (elem_of_dom_2 m2) in E2. rewrite <- Hdom in E2.
    apply elem_of_dom in E2 as [? ?]. congruence.
Qed.

Lemma deref_Some h set m : h !! set = Some m → deref h set = m.
Proof. unfold deref. by intros ->. Qed.

Lemma Contains_keys set x h : Contains set x h = bool_decide (x ∈ keys h set).
Proof.
  unfold Contains, keys. destruct (deref h set !! x) eqn:E.
  - symmetry. apply bool_decide_eq_true. by apply elem_of_dom.
  - symmetry. apply bool_decide_eq_false. by apply not_elem_of_dom.
Qed.

Lemma Contains_true set x h : Contains set x h = true ↔ x ∈ keys h set.
Proof. rewrite Contains_keys. apply bool_decide_eq_true. Qed.

Lemma Contains_false set x h : Contains set x h = false ↔ x ∉ keys h set.
Proof. rewrite Contains_keys. apply bool_decide_eq_false. Qed.

Lemma Len_keys set h : Len set h = size (keys h set).
Proof. unfold Len, keys. symmetry. apply size_dom. Qed.

Lemma lookup_Add_ne set x h l : l ≠ set → Add set x h !! l = h !! l.
Proof. intros. unfold Add. by apply lookup_alter_ne. Qed.

Lemma lookup_Remove_ne set x h l : l ≠ set → Remove set x h !! l = h !! l.
Proof. intros. unfold Remove. by apply lookup_alter_ne. Qed.

Lemma is_Some_Add set x h l : is_Some (Add set x h !! l) ↔ is_Some (h !! l).
Proof.
  unfold Add. destruct (decide (set = l)) as [->|].
  - rewrite lookup_alter_eq. apply fmap_is_Some.
  - by rewrite lookup_alter_ne.
Qed.

Lemma is_Some_Remove set x h l :
  is_Some (Remove set x h !! l) ↔ is_Some (h !! l).
Proof.
  unfold Remove. destruct (decide (set = l)) as [->|].
  - rewrite lookup_alter_eq. apply fmap_is_Some.
  - by rewrite lookup_alter_ne.
Qed.

Lemma keys_Add_eq set x h :
  is_Some (h !! set) → keys (Add set x h) set = {[x]} ∪ keys h set.
Proof.
  intros [m Hm]. unfold keys, deref, Add.
  rewrite lookup_alter_eq, Hm. simpl. apply dom_insert_L.
Qed.

Lemma keys_Add_ne set x h l : l ≠ set → keys (Add set x h) l = keys h l.
Proof. intros. unfold keys, deref. by rewrite lookup_Add_ne. Qed.

Lemma keys_Remove_eq set x h : keys (Remove set x h) set = keys h set ∖ {[x]}.
Proof.
  unfold keys, deref, Remove. rewrite lookup_alter_eq.
  destruct (h !! set) as [m|]; simpl.
  - apply dom_delete_L.
  - rewrite dom_empty_L. set_solver.
Qed.

Lemma keys_Remove_ne set x h l : l ≠ set → keys (Remove set x h) l = keys h l.
Proof. intros. unfold keys, deref. by rewrite lookup_Remove_ne. Qed.

(** Adding a key that is present, or deleting one that is absent, leaves
    the whole store as it was. *)
Lemma Add_present set x h : x ∈ keys h set → Add set x h = h.
Proof.
  intros Hx. apply map_eq. intros l. destruct (decide (l = set)) as [->|].
  - unfold Add. rewrite lookup_alter_eq. unfold keys, deref in Hx.
    destruct (h !! set) as [m|]; simpl in *; [|done].
    f_equal. apply gomap_eq. rewrite dom_insert_L. set_solver.
  - by apply lookup_Add_ne.
Qed.

Lemma Remove_absent set x h : x ∉ keys h set → Remove set x h = h.
Proof.
  intros Hx. apply map_eq. intros l. destruct (decide (l = set)) as [->|].
  - unfold Remove. rewrite lookup_alter_eq. unfold keys, deref in Hx.
    destruct (h !! set) as [m|]; simpl in *; [|done].
    f_equal. apply gomap_eq. rewrite dom_delete_L. set_solver.
  - by apply lookup_Remove_ne.
Qed.

(** Two stores that hold maps with the same keys at a live reference hold
    the same map there. *)
Lemma lookup_keys_eq h h' set :
  is_Some (h !! set) → is_Some (h' !! set) →
  keys h' set = keys h set → h' !! set = h !! set.
Proof.
  intros [m Hm] [m' Hm'] Hk. unfold keys, deref in Hk.
  rewrite Hm, Hm' in *. simpl in Hk. f_equal. by apply gomap_eq.
Qed.

Lemma NewHashSet_fresh h : h !! (NewHashSet h).1 = None.
Proof. simpl. apply not_elem_of_dom, is_fresh. Qed.

Lemma maps_Clone_fresh set h : h !! (maps_Clone set h).1 = None.
Proof. simpl. apply not_elem_of_dom, is_fresh. Qed.
End StoreFacts.

(** ** The loop rule

    For a body that creates no key in the map it ranges over and deletes from
    it at most the key it was handed, an invariant indexed by the keys still
    to come is carried through every order the runtime may choose. *)

Section RangeRule.
Context {T : Type} `{Countable T} {St R : Type}.
Variable cur : St → gmap T ().
Variable body : T → St → St + R.
Variable I : gset T → St → Prop.
Variable Q : R → Prop.

Lemma range_from_inv :
  body_ok cur body I Q →
  ∀ ks must s out,
    I must s → must ⊆ dom (cur s) →
    range_from cur body ks must ∅ s = Some out →
    match out with inl s' => I ∅ s' | inr r => Q r end.
Proof.
  intros Hbody ks. induction ks as [|k ks IH]; intros must s out HI Hsub; simpl.
  - destruct (decide (must = ∅)) as [->|]; [|done]. by intros [= <-].
  - destruct (decide (k ∈ must ∪ ∅)) as [Hk|]; [|done].
    assert (k ∈ must) as Hk' by set_solver.
    specialize (Hbody must k s HI Hsub Hk').
    destruct (body k s) as [s'|r]; [|by intros [= <-]].
    destruct Hbody as (Hkeep & Hnew & HI').
    assert (must_after cur must k s' = must ∖ {[k]}) as ->
      by (unfold must_after; set_solver).
    assert (created_after cur ∅ k s s' = ∅) as ->
      by (unfold created_after; set_solver).
    apply IH; [done|set_solver].
Qed.

Lemma range_from_total :
  body_ok cur body I Q →
  ∀ must s, I must s → must ⊆ dom (cur s) →
    ∃ ks out, range_from cur body ks must ∅ s = Some out.
Proof.
  intros Hbody must.
  induction (set_wf must) as [must _ IH]. intros s HI Hsub.
  destruct (decide (must = ∅)) as [->|Hne].
  - exists [], (inl s). simpl. by rewrite decide_True.
  - apply set_choose_L in Hne as [k Hk].
    specialize (Hbody must k s HI Hsub Hk).
    destruct (body k s) as [s'|r] eqn:Hb.
    + destruct Hbody as (Hkeep & Hnew & HI').
      destruct (IH (must ∖ {[k]})) with (s := s') as (ks & out & Hrun);
        [set_solver|done|set_solver|].
      exists (k :: ks), out. simpl.
      rewrite decide_True by set_solver. rewrite Hb.
      assert (must_after cur must k s' = must ∖ {[k]}) as ->
        by (unfold must_after; set_solver).
      assert (created_after cur ∅ k s s' = ∅) as ->
        by (unfold created_after; set_solver).
      done.
    + exists [k], (inr r). simpl.
      rewrite decide_True by set_solver. by rewrite Hb.
Qed.
End RangeRule.

(** ** What each operation does to the store, whatever the order of keys *)

Section Operations.
Context {T : Type} `{Countable T}.
Implicit Types (h : gmap loc (gmap T ())) (set other newset : loc).
Implicit Types (ks : list T).

Lemma range_all_inv {St} (cur : St → gmap T ()) body
    (I : gset T → St → Prop) :
  body_ok cur (λ k s, inl (body k s)) I (λ _ : Empty_set, False) →
  ∀ ks s s', I (dom (cur s)) s → range_all cur body ks s = Some s' → I ∅ s'.
Proof.
  intros Hbody ks s s' HI. unfold range_all, range.
  destruct (range_from _ _ ks _ ∅ s) as [[s2|[]]|] eqn:Hrun; [|done].
  intros [= <-].
  by apply (range_from_inv _ _ _ _ Hbody ks _ s (inl s2) HI).
Qed.

Lemma range_all_total {St} (cur : St → gmap T ()) body
    (I : gset T → St → Prop) :
  body_ok cur (λ k s, inl (body k s)) I (λ _ : Empty_set, False) →
  ∀ s, I (dom (cur s)) s → ∃ ks s', range_all cur body ks s = Some s'.
Proof.
  intros Hbody s HI.
  destruct (range_from_total _ _ _ _ Hbody _ s HI) as (ks & out & Hrun);
    [done|].
  exists ks. unfold range_all, range. rewrite Hrun.
  destruct out as [s'|[]]. by exists s'.
Qed.

Lemma live_fresh_ne h l : live h l → l ≠ fresh (dom h).
Proof.
  intros Hl ->. apply elem_of_dom in Hl. by apply is_fresh in Hl.
Qed.

Lemma changes_only_keys h set X h' l :
  changes_only h set X h' → l ≠ set → keys h' l = keys h l.
Proof. intros (Hfr & _ & _) Hne. unfold keys, deref. by rewrite Hfr. Qed.

Lemma changes_only_ext h set X Y h' :
  X = Y → changes_only h set X h' → changes_only h set Y h'.
Proof. by intros ->. Qed.

Lemma changes_only_Add h set X h' x :
  changes_only h set X h' → changes_only h set ({[x]} ∪ X) (Add set x h').
Proof.
  intros (Hfr & Hlive & Hk). split_and!.
  - intros l Hl. rewrite lookup_Add_ne by done. by apply Hfr.
  - by apply is_Some_Add.
  - rewrite keys_Add_eq by done. by rewrite Hk.
Qed.

Lemma changes_only_Remove h set X h' x :
  changes_only h set X h' → changes_only h set (X ∖ {[x]}) (Remove set x h').
Proof.
  intros (Hfr & Hlive & Hk). split_and!.
  - intros l Hl. rewrite lookup_Remove_ne by done. by apply Hfr.
  - by apply is_Some_Remove.
  - rewrite keys_Remove_eq. by rewrite Hk.
Qed.

Lemma changes_only_alloc h (m : gmap T ()) :
  changes_only h (fresh (dom h)) (dom m) (<[fresh (dom h) := m]> h).
Proof.
  split_and!.
  - intros l Hl. by rewrite lookup_insert_ne.
  - unfold live. rewrite lookup_insert_eq. by eexists.
  - unfold keys, deref. by rewrite lookup_insert_eq.
Qed.

Lemma changes_only_refl h set : live h set → changes_only h set (keys h set) h.
Proof. intros Hl. by split_and!. Qed.

(** A run that changed only [set] and left it with the keys it had leaves
    the whole store as it was. *)
Lemma changes_only_same h set h' :
  live h set → changes_only h set (keys h set) h' → h' = h.
Proof.
  intros Hs (Hfr & Hlive & Hk). apply map_eq. intros l.
  destruct (decide (l = set)) as [->|Hne]; [|by apply Hfr].
  by apply lookup_keys_eq.
Qed.

Lemma changes_only_live h set X h' l :
  changes_only h set X h' → live h l → live h' l.
Proof.
  intros (Hfr & Hlive & _) Hl. destruct (decide (l = set)) as [->|Hne].
  - done.
  - unfold live. by rewrite Hfr.
Qed.

Lemma live_not_fresh h l n : live h l → h !! n = None → l ≠ n.
Proof. intros [m Hm] Hn ->. congruence. Qed.

Lemma allocates_old h newset X h' l :
  allocates h newset X h' → live h l →
  l ≠ newset ∧ live h' l ∧ keys h' l = keys h l ∧ h' !! l = h !! l.
Proof.
  intros [Hn Hc] Hl. pose proof (live_not_fresh _ _ _ Hl Hn) as Hne.
  split_and!; [done|by eapply changes_only_live| |by apply Hc].
  by eapply changes_only_keys.
Qed.

Lemma allocates_new h newset X h' :
  allocates h newset X h' → live h' newset ∧ keys h' newset = X.
Proof. by intros (_ & _ & ? & ?). Qed.

Lemma changes_only_old h set X h' l :
  changes_only h set X h' → live h l → l ≠ set →
  live h' l ∧ keys h' l = keys h l.
Proof.
  intros Hc Hl Hne. split; [by eapply changes_only_live|].
  by eapply changes_only_keys.
Qed.

Lemma allocates_independent h newset X h' a b :
  allocates h newset X h' → live h a → live h b →
  newset ≠ a ∧ newset ≠ b ∧ h' !! a = h !! a ∧ h' !! b = h !! b ∧
  independent_result h newset h'.
Proof.
  intros Hal Ha Hb.
  destruct (allocates_old _ _ _ _ a Hal Ha) as (Hna & _ & _ & Hsa).
  destruct (allocates_old _ _ _ _ b Hal Hb) as (Hnb & _ & _ & Hsb).
  destruct Hal as (Hnew & Hfr & Hlive & _).
  split_and!; try done. unfold independent_result. split_and!; try done.
  intros l x Hl. split_and!.
  - rewrite lookup_Add_ne by done. by apply Hfr.
  - rewrite lookup_Remove_ne by done. by apply Hfr.
  - by rewrite lookup_Add_ne.
  - by rewrite lookup_Remove_ne.
Qed.

Lemma allocates_ext h newset X Y h' :
  X = Y → allocates h newset X h' → allocates h newset Y h'.
Proof. by intros ->. Qed.

(** *** Union *)

Lemma Union_body h set other :
  live h other →
  body_ok (λ s, deref s other)
    (λ k s, inl (Add (fresh (dom h)) k s) : _ + Empty_set)
    (Union_inv h set other (fresh (dom h))) (λ _, False).
Proof.
  intros Ho must k s HI Hsub Hk.
  pose proof (live_fresh_ne _ _ Ho) as Hne.
  pose proof (changes_only_keys _ _ _ _ other HI Hne) as Hko.
  simpl. fold (keys s other) in *. fold (keys (Add (fresh (dom h)) k s) other).
  rewrite keys_Add_ne by done. split; [|split]; [set_solver..|].
  apply (changes_only_Add _ _ _ _ k) in HI.
  revert HI. apply changes_only_ext. set_at k.
Qed.

Lemma Union_start h set other :
  live h other →
  Union_inv h set other (fresh (dom h))
    (dom (deref (<[fresh (dom h) := deref h set]> h) other))
    (<[fresh (dom h) := deref h set]> h).
Proof.
  intros Ho. pose proof (live_fresh_ne _ _ Ho) as Hne.
  pose proof (changes_only_alloc h (deref h set)) as HI.
  pose proof (changes_only_keys _ _ _ _ other HI Hne) as Hko.
  fold (keys (<[fresh (dom h) := deref h set]> h) other). rewrite Hko.
  revert HI. apply changes_only_ext. unfold keys. set_solver.
Qed.

Lemma Union_spec ks h set other newset h' :
  live h other →
  Union ks set other h = Some (newset, h') →
  allocates h newset (keys h set ∪ keys h other) h'.
Proof.
  intros Ho. unfold Union, maps_Clone.
  destruct (range_all _ _ ks _) as [h2|] eqn:Hrun; [|done].
  simpl. intros [= <- <-].
  split; [apply not_elem_of_dom, is_fresh|].
  apply (range_all_inv _ _ _ (Union_body h set other Ho)) in Hrun;
    [|by apply Union_start].
  revert Hrun. apply changes_only_ext. set_solver.
Qed.

Lemma Union_total h set other :
  live h other → ∃ ks r, Union ks set other h = Some r.
Proof.
  intros Ho.
  destruct (range_all_total _ (λ element s, Add (fresh (dom h)) element s) _
              (Union_body h set other Ho) _
              (Union_start h set other Ho)) as (ks & h2 & Hrun).
  exists ks, (fresh (dom h), h2). unfold Union, maps_Clone.
  by rewrite Hrun.
Qed.

(** *** Intersection *)

Lemma Intersection_body h set other :
  live h set → live h other →
  body_ok (λ s, deref s other)
    (λ k s, inl (if Contains set k s then Add (fresh (dom h)) k s else s)
       : _ + Empty_set)
    (Intersection_inv h set other (fresh (dom h))) (λ _, False).
Proof.
  intros Hs Ho must k s HI Hsub Hk. simpl.
  pose proof (live_fresh_ne _ _ Hs) as Hns.
  pose proof (live_fresh_ne _ _ Ho) as Hno.
  pose proof (changes_only_keys _ _ _ _ other HI Hno) as Hko.
  pose proof (changes_only_keys _ _ _ _ set HI Hns) as Hks.
  fold (keys s other) in *. rewrite Contains_keys, Hks.
  case_bool_decide as Hin.
  - fold (keys (Add (fresh (dom h)) k s) other).
    rewrite keys_Add_ne by done. split; [|split]; [set_solver..|].
    apply (changes_only_Add _ _ _ _ k) in HI.
    revert HI. apply changes_only_ext. set_at k.
  - fold (keys s other). split; [|split]; [set_solver..|].
    revert HI. apply changes_only_ext. set_at k.
Qed.

Lemma Intersection_start h set other :
  live h other →
  Intersection_inv h set other (fresh (dom h))
    (dom (deref (<[fresh (dom h) := ∅]> h) other)) (<[fresh (dom h) := ∅]> h).
Proof.
  intros Ho. pose proof (live_fresh_ne _ _ Ho) as Hne.
  pose proof (changes_only_alloc h ∅) as HI.
  pose proof (changes_only_keys _ _ _ _ other HI Hne) as Hko.
  fold (keys (<[fresh (dom h) := ∅]> h) other). rewrite Hko.
  revert HI. apply changes_only_ext. set_solver.
Qed.

Lemma Intersection_spec ks h set other newset h' :
  live h set → live h other →
  Intersection ks set other h = Some (newset, h') →
  allocates h newset (keys h set ∩ keys h other) h'.
Proof.
  intros Hs Ho. unfold Intersection, NewHashSet.
  destruct (range_all _ _ ks _) as [h2|] eqn:Hrun; [|done].
  simpl. intros [= <- <-].
  split; [apply not_elem_of_dom, is_fresh|].
  apply (range_all_inv _ _ _ (Intersection_body h set other Hs Ho)) in Hrun;
    [|by apply Intersection_start].
  revert Hrun. apply changes_only_ext. set_solver.
Qed.

Lemma Intersection_total h set other :
  live h set → live h other → ∃ ks r, Intersection ks set other h = Some r.
Proof.
  intros Hs Ho.
  destruct (range_all_total _ _ _ (Intersection_body h set other Hs Ho) _
              (Intersection_start h set other Ho)) as (ks & h2 & Hrun).
  exists ks, (fresh (dom h), h2). unfold Intersection, NewHashSet.
  by rewrite Hrun.
Qed.

(** *** Difference *)

Lemma Difference_body h set other :
  live h set → live h other →
  body_ok (λ s, deref s set)
    (λ k s, inl (if negb (Contains other k s) then Add (fresh (dom h)) k s
                 else s) : _ + Empty_set)
    (Difference_inv h set other (fresh (dom h))) (λ _, False).
Proof.
  intros Hs Ho must k s HI Hsub Hk. simpl.
  pose proof (live_fresh_ne _ _ Hs) as Hns.
  pose proof (live_fresh_ne _ _ Ho) as Hno.
  pose proof (changes_only_keys _ _ _ _ other HI Hno) as Hko.
  pose proof (changes_only_keys _ _ _ _ set HI Hns) as Hks.
  fold (keys s set) in *. rewrite Contains_keys, Hko.
  case_bool_decide as Hin; simpl.
  - fold (keys s set). split; [|split]; [set_solver..|].
    revert HI. apply changes_only_ext. set_at k.
  - fold (keys (Add (fresh (dom h)) k s) set).
    rewrite keys_Add_ne by done. split; [|split]; [set_solver..|].
    apply (changes_only_Add _ _ _ _ k) in HI.
    revert HI. apply changes_only_ext. set_at k.
Qed.

Lemma Difference_start h set other :
  live h set →
  Difference_inv h set other (fresh (dom h))
    (dom (deref (<[fresh (dom h) := ∅]> h) set)) (<[fresh (dom h) := ∅]> h).
Proof.
  intros Hs. pose proof (live_fresh_ne _ _ Hs) as Hne.
  pose proof (changes_only_alloc h ∅) as HI.
  pose proof (changes_only_keys _ _ _ _ set HI Hne) as Hks.
  fold (keys (<[fresh (dom h) := ∅]> h) set). rewrite Hks.
  revert HI. apply changes_only_ext. set_solver.
Qed.

Lemma Difference_spec ks h set other newset h' :
  live h set → live h other →
  Difference ks set other h = Some (newset, h') →
  allocates h newset (keys h set ∖ keys h other) h'.
Proof.
  intros Hs Ho. unfold Difference, NewHashSet.
  destruct (range_all _ _ ks _) as [h2|] eqn:Hrun; [|done].
  simpl. intros [= <- <-].
  split; [apply not_elem_of_dom, is_fresh|].
  apply (range_all_inv _ _ _ (Difference_body h set other Hs Ho)) in Hrun;
    [|by apply Difference_start].
  revert Hrun. apply changes_only_ext. set_solver.
Qed.

Lemma Difference_total h set other :
  live h set → live h other → ∃ ks r, Difference ks set other h = Some r.
Proof.
  intros Hs Ho.
  destruct (range_all_total _ _ _ (Difference_body h set other Hs Ho) _
              (Difference_start h set other Hs)) as (ks & h2 & Hrun).
  exists ks, (fresh (dom h), h2). unfold Difference, NewHashSet.
  by rewrite Hrun.
Qed.

(** *** SymmetricDifference *)

Lemma SymmetricDifference_body h set other :
  live h other →
  body_ok (λ s, deref s other)
    (λ k s, inl (if Contains (fresh (dom h)) k s
                 then Remove (fresh (dom h)) k s
                 else Add (fresh (dom h)) k s) : _ + Empty_set)
    (SymmetricDifference_inv h set other (fresh (dom h))) (λ _, False).
Proof.
  intros Ho must k s HI Hsub Hk. simpl.
  pose proof (live_fresh_ne _ _ Ho) as Hno.
  pose proof (changes_only_keys _ _ _ _ other HI Hno) as Hko.
  pose proof HI as (_ & _ & Hkn).
  fold (keys s other) in *. rewrite Contains_keys, Hkn.
  case_bool_decide as Hin.
  - fold (keys (Remove (fresh (dom h)) k s) other).
    rewrite keys_Remove_ne by done. split; [|split]; [set_solver..|].
    apply (changes_only_Remove _ _ _ _ k) in HI.
    revert HI. apply changes_only_ext. unfold toggled in *. set_at k.
  - fold (keys (Add (fresh (dom h)) k s) other).
    rewrite keys_Add_ne by done. split; [|split]; [set_solver..|].
    apply (changes_only_Add _ _ _ _ k) in HI.
    revert HI. apply changes_only_ext. unfold toggled in *. set_at k.
Qed.

Lemma SymmetricDifference_start h set other :
  live h other →
  SymmetricDifference_inv h set other (fresh (dom h))
    (dom (deref (<[fresh (dom h) := deref h set]> h) other))
    (<[fresh (dom h) := deref h set]> h).
Proof.
  intros Ho. pose proof (live_fresh_ne _ _ Ho) as Hne.
  pose proof (changes_only_alloc h (deref h set)) as HI.
  pose proof (changes_only_keys _ _ _ _ other HI Hne) as Hko.
  fold (keys (<[fresh (dom h) := deref h set]> h) other). rewrite Hko.
  revert HI. apply changes_only_ext. unfold toggled, keys. set_solver.
Qed.

Lemma SymmetricDifference_spec ks h set other newset h' :
  live h other →
  SymmetricDifference ks set other h = Some (newset, h') →
  allocates h newset
    ((keys h set ∖ keys h other) ∪ (keys h other ∖ keys h set)) h'.
Proof.
  intros Ho. unfold SymmetricDifference, maps_Clone.
  destruct (range_all _ _ ks _) as [h2|] eqn:Hrun; [|done].
  simpl. intros [= <- <-].
  split; [apply not_elem_of_dom, is_fresh|].
  apply (range_all_inv _ _ _ (SymmetricDifference_body h set other Ho))
    in Hrun; [|by apply SymmetricDifference_start].
  revert Hrun. apply changes_only_ext. unfold toggled. set_solver.
Qed.

Lemma SymmetricDifference_total h set other :
  live h other → ∃ ks r, SymmetricDifference ks set other h = Some r.
Proof.
  intros Ho.
  destruct (range_all_total _
              (λ element s, if Contains (fresh (dom h)) element s
                            then Remove (fresh (dom h)) element s
                            else Add (fresh (dom h)) element s) _
              (SymmetricDifference_body h set other Ho) _
              (SymmetricDifference_start h set other Ho))
    as (ks & h2 & Hrun).
  exists ks, (fresh (dom h), h2). unfold SymmetricDifference, maps_Clone.
  by rewrite Hrun.
Qed.

(** *** Merge: the receiver may be the argument *)

Lemma Merge_body h set other :
  body_ok (λ s, deref s other) (λ k s, inl (Add set k s) : _ + Empty_set)
    (Merge_inv h set other) (λ _, False).
Proof.
  intros must k s HI Hsub Hk. simpl. fold (keys s other) in *.
  fold (keys (Add set k s) other).
  destruct (decide (other = set)) as [->|Hne].
  - pose proof HI as (_ & _ & Hks).
    rewrite Add_present by set_solver. split; [|split]; [set_solver..|].
    revert HI. apply changes_only_ext. set_at k.
  - pose proof (changes_only_keys _ _ _ _ other HI Hne) as Hko.
    rewrite keys_Add_ne by done. split; [|split]; [set_solver..|].
    apply (changes_only_Add _ _ _ _ k) in HI.
    revert HI. apply changes_only_ext. set_at k.
Qed.

Lemma Merge_start h set other :
  live h set → Merge_inv h set other (dom (deref h other)) h.
Proof.
  intros Hs. apply (changes_only_ext _ _ (keys h set)).
  - unfold keys. set_solver.
  - by apply changes_only_refl.
Qed.

Lemma Merge_spec ks h set other h' :
  live h set →
  Merge ks set other h = Some h' →
  changes_only h set (keys h set ∪ keys h other) h'.
Proof.
  intros Hs Hrun. unfold Merge in Hrun.
  apply (range_all_inv _ _ _ (Merge_body h set other)) in Hrun;
    [|by apply Merge_start].
  revert Hrun. apply changes_only_ext. set_solver.
Qed.

Lemma Merge_total h set other :
  live h set → ∃ ks h', Merge ks set other h = Some h'.
Proof.
  intros Hs.
  apply (range_all_total _ (λ element s, Add set element s) _
           (Merge_body h set other) _ (Merge_start h set other Hs)).
Qed.

(** *** Retain: ranges over the receiver and deletes from it *)

Lemma Retain_body h set other :
  body_ok (λ s, deref s set)
    (λ k s, inl (if negb (Contains other k s) then Remove set k s else s)
       : _ + Empty_set)
    (Retain_inv h set other) (λ _, False).
Proof.
  intros must k s HI Hsub Hk. simpl. fold (keys s set) in *.
  pose proof HI as (_ & _ & Hks). rewrite Contains_keys.
  destruct (decide (other = set)) as [->|Hne].
  - rewrite bool_decide_eq_true_2 by set_solver. simpl.
    fold (keys s set). split; [|split]; [set_solver..|].
    revert HI. apply changes_only_ext. set_at k.
  - rewrite (changes_only_keys _ _ _ _ other HI Hne).
    case_bool_decide as Hin; simpl.
    + fold (keys s set). split; [|split]; [set_solver..|].
      revert HI. apply changes_only_ext. set_at k.
    + fold (keys (Remove set k s) set). rewrite keys_Remove_eq.
      split; [|split]; [set_solver..|].
      apply (changes_only_Remove _ _ _ _ k) in HI.
      revert HI. apply changes_only_ext. set_at k.
Qed.

Lemma Retain_start h set other :
  live h set → Retain_inv h set other (dom (deref h set)) h.
Proof.
  intros Hs. apply (changes_only_ext _ _ (keys h set)).
  - unfold keys. set_solver.
  - by apply changes_only_refl.
Qed.

Lemma Retain_spec ks h set other h' :
  live h set →
  Retain ks set other h = Some h' →
  changes_only h set (keys h set ∩ keys h other) h'.
Proof.
  intros Hs Hrun. unfold Retain in Hrun.
  apply (range_all_inv _ _ _ (Retain_body h set other)) in Hrun;
    [|by apply Retain_start].
  revert Hrun. apply changes_only_ext.
  apply set_eq. intros x. destruct (decide (x ∈ keys h other)); set_solver.
Qed.

Lemma Retain_total h set other :
  live h set → ∃ ks h', Retain ks set other h = Some h'.
Proof.
  intros Hs.
  apply (range_all_total _
           (λ item s, if negb (Contains other item s) then Remove set item s
                      else s) _
           (Retain_body h set other) _ (Retain_start h set other Hs)).
Qed.

(** *** Subtract: ranges over the receiver and deletes from it *)

Lemma Subtract_body h set other :
  body_ok (λ s, deref s set)
    (λ k s, inl (if Contains other k s then Remove set k s else s)
       : _ + Empty_set)
    (Subtract_inv h set other) (λ _, False).
Proof.
  intros must k s HI Hsub Hk. simpl. fold (keys s set) in *.
  pose proof HI as (_ & _ & Hks). rewrite Contains_keys.
  destruct (decide (other = set)) as [->|Hne].
  - rewrite bool_decide_eq_true_2 by set_solver.
    fold (keys (Remove set k s) set). rewrite keys_Remove_eq.
    split; [|split]; [set_solver..|].
    apply (changes_only_Remove _ _ _ _ k) in HI.
    revert HI. apply changes_only_ext. set_at k.
  - rewrite (changes_only_keys _ _ _ _ other HI Hne).
    case_bool_decide as Hin; simpl.
    + fold (keys (Remove set k s) set). rewrite keys_Remove_eq.
      split; [|split]; [set_solver..|].
      apply (changes_only_Remove _ _ _ _ k) in HI.
      revert HI. apply changes_only_ext. set_at k.
    + fold (keys s set). split; [|split]; [set_solver..|].
      revert HI. apply changes_only_ext. set_at k.
Qed.

Lemma Subtract_start h set other :
  live h set → Subtract_inv h set other (dom (deref h set)) h.
Proof.
  intros Hs. apply (changes_only_ext _ _ (keys h set)).
  - unfold keys. set_solver.
  - by apply changes_only_refl.
Qed.

Lemma Subtract_spec ks h set other h' :
  live h set →
  Subtract ks set other h = Some h' →
  changes_only h set (keys h set ∖ keys h other) h'.
Proof.
  intros Hs Hrun. unfold Subtract in Hrun.
  apply (range_all_inv _ _ _ (Subtract_body h set other)) in Hrun;
    [|by apply Subtract_start].
  revert Hrun. apply changes_only_ext. set_solver.
Qed.

Lemma Subtract_total h set other :
  live h set → ∃ ks h', Subtract ks set other h = Some h'.
Proof.
  intros Hs.
  apply (range_all_total _
           (λ item s, if Contains other item s then Remove set item s else s)
           _ (Subtract_body h set other) _ (Subtract_start h set other Hs)).
Qed.

(** *** Xor: the receiver may be the argument, and is then deleted from while
    it is ranged over *)

Lemma Xor_body h set other :
  body_ok (λ s, deref s other)
    (λ k s, inl (if Contains set k s then Remove set k s else Add set k s)
       : _ + Empty_set)
    (Xor_inv h set other) (λ _, False).
Proof.
  intros must k s HI Hsub Hk. simpl. fold (keys s other) in *.
  pose proof HI as (_ & _ & Hks). rewrite Contains_keys.
  destruct (decide (other = set)) as [->|Hne].
  - rewrite bool_decide_eq_true_2 by set_solver.
    fold (keys (Remove set k s) set). rewrite keys_Remove_eq.
    split; [|split]; [set_solver..|].
    apply (changes_only_Remove _ _ _ _ k) in HI.
    revert HI. apply changes_only_ext. unfold toggled in *. set_at k.
  - pose proof (changes_only_keys _ _ _ _ other HI Hne) as Hko.
    rewrite Hks. case_bool_decide as Hin.
    + fold (keys (Remove set k s) other). rewrite keys_Remove_ne by done.
      split; [|split]; [set_solver..|].
      apply (changes_only_Remove _ _ _ _ k) in HI.
      revert HI. apply changes_only_ext. unfold toggled in *. set_at k.
    + fold (keys (Add set k s) other). rewrite keys_Add_ne by done.
      split; [|split]; [set_solver..|].
      apply (changes_only_Add _ _ _ _ k) in HI.
      revert HI. apply changes_only_ext. unfold toggled in *. set_at k.
Qed.

Lemma Xor_start h set other :
  live h set → Xor_inv h set other (dom (deref h other)) h.
Proof.
  intros Hs. apply (changes_only_ext _ _ (keys h set)).
  - unfold toggled, keys. set_solver.
  - by apply changes_only_refl.
Qed.

Lemma Xor_spec ks h set other h' :
  live h set →
  Xor ks set other h = Some h' →
  changes_only h set
    ((keys h set ∖ keys h other) ∪ (keys h other ∖ keys h set)) h'.
Proof.
  intros Hs Hrun. unfold Xor in Hrun.
  apply (range_all_inv _ _ _ (Xor_body h set other)) in Hrun;
    [|by apply Xor_start].
  revert Hrun. apply changes_only_ext. unfold toggled. set_solver.
Qed.

Lemma Xor_total h set other :
  live h set → ∃ ks h', Xor ks set other h = Some h'.
Proof.
  intros Hs.
  apply (range_all_total _
           (λ element s, if Contains set element s then Remove set element s
                         else Add set element s) _
           (Xor_body h set other) _ (Xor_start h set other Hs)).
Qed.

(** *** The relational predicates *)

Lemma all_in_other_body h set other :
  body_ok (λ _ : (), deref h set)
    (λ item _, if negb (Contains other item h) then inr false else inl ())
    (all_in_other_inv h set other) (all_in_other_ret h set other).
Proof.
  intros must k [] HI Hsub Hk. fold (keys h set) in *.
  unfold all_in_other_inv, all_in_other_ret in *.
  rewrite Contains_keys. case_bool_decide as Hin; simpl.
  - split; [|split]; [set_solver..|].
    intros x Hx. destruct (decide (x = k)) as [->|]; set_solver.
  - split; [done|]. set_solver.
Qed.

Lemma all_in_other_spec ks h set other r :
  all_in_other ks set other h = Some r →
  r = bool_decide (keys h set ⊆ keys h other).
Proof.
  unfold all_in_other, range.
  destruct (range_from _ _ ks _ ∅ ()) as [out|] eqn:Hrun; [|done].
  apply (range_from_inv _ _ _ _ (all_in_other_body h set other)) in Hrun.
  - destruct out as [[]|r']; intros [= <-].
    + symmetry. apply bool_decide_eq_true. unfold all_in_other_inv in Hrun.
      set_solver.
    + destruct Hrun as [-> Hn]. symmetry. by apply bool_decide_eq_false.
  - unfold all_in_other_inv, keys. set_solver.
  - done.
Qed.

Lemma all_in_other_total h set other :
  ∃ ks r, all_in_other ks set other h = Some r.
Proof.
  destruct (range_from_total _ _ _ _ (all_in_other_body h set other)
              (dom (deref h set)) ()) as (ks & out & Hrun).
  - unfold all_in_other_inv, keys. set_solver.
  - done.
  - exists ks. unfold all_in_other, range. rewrite Hrun.
    destruct out as [[]|r]; eauto.
Qed.

Lemma Equals_spec ks h set other r :
  Equals ks set other h = Some r →
  r = bool_decide (keys h set = keys h other).
Proof.
  unfold Equals. rewrite !Len_keys. case_decide as Hlen.
  - intros [= <-]. symmetry. apply bool_decide_eq_false. congruence.
  - intros ->%all_in_other_spec. apply bool_decide_ext. split.
    + intros Hsub. apply set_subseteq_size_eq; [done|lia].
    + by intros ->.
Qed.

Lemma IsSubset_spec ks h set other r :
  IsSubset ks set other h = Some r →
  r = bool_decide (keys h set ⊆ keys h other).
Proof.
  unfold IsSubset. rewrite !Len_keys. case_decide as Hlen.
  - intros [= <-]. symmetry. apply bool_decide_eq_false.
    intros Hsub%subseteq_size. lia.
  - apply all_in_other_spec.
Qed.

(** [IsSuperset] runs the same loop as [IsSubset], over the receiver's own
    keys: once the receiver is not smaller than [other], it answers whether
    the receiver is included in [other], that is whether the two are equal. *)
Lemma IsSuperset_spec ks h set other r :
  IsSuperset ks set other h = Some r →
  r = bool_decide (keys h set = keys h other).
Proof.
  unfold IsSuperset. rewrite !Len_keys. case_decide as Hlen.
  - intros [= <-]. symmetry. apply bool_decide_eq_false.
    intros Heq. rewrite Heq in Hlen. lia.
  - intros ->%all_in_other_spec. apply bool_decide_ext. split.
    + intros Hsub. apply set_subseteq_size_eq; [done|lia].
    + by intros ->.
Qed.

Lemma Equals_total h set other : ∃ ks r, Equals ks set other h = Some r.
Proof.
  destruct (all_in_other_total h set other) as (ks & r & Hr).
  exists ks. unfold Equals. case_decide; eauto.
Qed.

Lemma IsSubset_total h set other : ∃ ks r, IsSubset ks set other h = Some r.
Proof.
  destruct (all_in_other_total h set other) as (ks & r & Hr).
  exists ks. unfold IsSubset. case_decide; eauto.
Qed.

Lemma IsSuperset_total h set other :
  ∃ ks r, IsSuperset ks set other h = Some r.
Proof.
  destruct (all_in_other_total h set other) as (ks & r & Hr).
  exists ks. unfold IsSuperset. case_decide; eauto.
Qed.

(** The result of an in-place operation on [c] and the set made afterwards by
    an allocating operation are equal when both have the same keys. *)
Lemma Equals_inplace_allocated h c X h1 u h2 ks r :
  changes_only h c X h1 → allocates h1 u X h2 →
  Equals ks c u h2 = Some r → r = true.
Proof.
  intros Hc Ha ->%Equals_spec. apply bool_decide_eq_true.
  destruct Hc as (_ & Hlive & Hk).
  destruct (allocates_old _ _ _ _ c Ha Hlive) as (_ & _ & -> & _).
  destruct (allocates_new _ _ _ _ Ha) as [_ ->]. done.
Qed.

(** Two sets allocated one after the other with the same keys are equal. *)
Lemma Equals_allocated_twice h u1 X h1 u2 h2 ks r :
  allocates h u1 X h1 → allocates h1 u2 X h2 →
  Equals ks u1 u2 h2 = Some r → r = true.
Proof.
  intros Ha1 Ha2 ->%Equals_spec. apply bool_decide_eq_true.
  destruct (allocates_new _ _ _ _ Ha1) as [Hlive Hk].
  destruct (allocates_old _ _ _ _ u1 Ha2 Hlive) as (_ & _ & -> & _).
  destruct (allocates_new _ _ _ _ Ha2) as [_ ->]. done.
Qed.

(** *** Loops that only read the map: the keys come once each, in the order
    the runtime chose *)

Lemma range_from_read {St} (m : gmap T ()) (f : T → St → St) ks :
  ∀ must s s',
    must ⊆ dom m →
    range_from (λ _, m) (λ k s, inl (f k s) : St + Empty_set) ks must ∅ s
      = Some (inl s') ↔
    (NoDup ks ∧ list_to_set ks = must) ∧ s' = foldl (λ s k, f k s) s ks.
Proof.
  induction ks as [|k ks IH]; intros must s s' Hsub; simpl.
  - case_decide as Hm.
    + subst. split; [intros [= <-]|intros [_ ->]]; [|done].
      split; [|done]. split; [constructor|done].
    + split; [done|]. intros [[_ Hm'] _]. by destruct Hm.
  - case_decide as Hk.
    + assert (must_after (λ _ : St, m) must k (f k s) = must ∖ {[k]}) as ->
        by (unfold must_after; set_solver).
      assert (created_after (λ _ : St, m) ∅ k s (f k s) = ∅) as ->
        by (unfold created_after; set_solver).
      rewrite IH by set_solver. rewrite NoDup_cons.
      split.
      * intros [[Hnd Hset] ->]. split; [|done]. split.
        -- split; [|done]. intros Hin.
           assert (k ∈ (list_to_set ks : gset T)) as Hin'
               by by apply elem_of_list_to_set.
           set_solver.
        -- rewrite Hset. set_at k.
      * intros [[[Hnin Hnd] Hset] ->]. split; [|done]. split; [done|].
        assert (k ∉ (list_to_set ks : gset T)) as Hnin'
            by by rewrite elem_of_list_to_set.
        set_at k.
    + split; [done|]. intros [[_ Hset] _]. destruct Hk. set_solver.
Qed.

Lemma range_all_read {St} (m : gmap T ()) (f : T → St → St) ks s s' :
  range_all (λ _, m) f ks s = Some s' ↔
  ks ≡ₚ elements (dom m) ∧ s' = foldl (λ s k, f k s) s ks.
Proof.
  assert ((NoDup ks ∧ list_to_set ks = dom m) ↔ ks ≡ₚ elements (dom m))
    as Hperm.
  { split.
    - intros [Hnd Hset]. apply NoDup_Permutation; [done|apply NoDup_elements|].
      intros x. rewrite elem_of_elements, <- Hset.
      by rewrite elem_of_list_to_set.
    - intros Hp. split.
      + rewrite Hp. apply NoDup_elements.
      + apply set_eq. intros x.
        by rewrite elem_of_list_to_set, Hp, elem_of_elements. }
  rewrite <- Hperm. rewrite <- (range_from_read m f ks (dom m) s s') by done.
  unfold range_all, range.
  destruct (range_from _ _ ks _ ∅ s) as [[s2|[]]|]; naive_solver.
Qed.

Lemma foldl_snoc_fmt {A} (g : T → A) ks acc :
  foldl (λ (elements : list A) item, elements ++ [g item]) acc ks
  = acc ++ (g <$> ks).
Proof.
  revert acc. induction ks as [|k ks IH]; intros acc; simpl.
  - by rewrite app_nil_r.
  - rewrite IH. by rewrite <- app_assoc.
Qed.

Lemma Elements_spec ks h set l :
  Elements ks set h = Some l ↔ ks ≡ₚ elements (keys h set) ∧ l = ks.
Proof.
  unfold Elements. rewrite range_all_read.
  rewrite (foldl_snoc_fmt id). simpl. by rewrite list_fmap_id.
Qed.

Lemma String_spec (fmt_v : T → string) ks h set r :
  String fmt_v ks set h = Some r ↔
  ks ≡ₚ elements (keys h set) ∧
  r = ("Set{" +:+ strings_Join (fmt_v <$> ks) ", " +:+ "}")%string.
Proof.
  unfold String.
  destruct (range_all _ _ ks []) as [els|] eqn:Hrun; simpl.
  - apply range_all_read in Hrun as [Hp ->]. rewrite foldl_snoc_fmt. simpl.
    naive_solver.
  - split; [done|]. intros [Hp _].
    assert (range_all (λ _ : list string, deref h set)
              (λ item elements, elements ++ [fmt_v item]) ks []
            = Some (foldl (λ s k, s ++ [fmt_v k]) [] ks)) as Hsome
      by by apply range_all_read.
    congruence.
Qed.
End Operations.

(** From a run of an allocating operation to what it allocated. *)
Ltac allocated H :=
  first [ apply Union_spec in H | apply Intersection_spec in H
        | apply Difference_spec in H | apply SymmetricDifference_spec in H ];
  [|by eauto 10..].

(** * The claims *)

Local Open Scope Z_scope.

Example ex_fmt : fmt_int 1 = "1"%string ∧ fmt_int (-12) = "-12"%string.
Proof. split; reflexivity. Qed.

Example ex_union :
  let '(a, b, h) := two_sets [1; 2; 3] [3; 4; 5] in
  ∃ u h', Union [5; 3; 4] a b h = Some (u, h') ∧ keys h' u = {[1; 2; 3; 4; 5]}.
Proof. vm_compute. eexists _, _. split; reflexivity. Qed.

(** An order the runtime cannot produce (a key twice, a key left out) is not
    a run of the loop. *)
Example ex_not_an_order :
  let '(a, b, h) := two_sets [1; 2; 3] [3; 4; 5] in
  Union [5; 3; 3; 4] a b h = None ∧ Union [5; 3] a b h = None.
Proof. vm_compute. split; reflexivity. Qed.

Example ex_retain_deletes_while_ranging :
  let '(a, b, h) := two_sets [1; 2; 3] [3; 4; 5] in
  ∃ h', Retain [2; 3; 1] a b h = Some h' ∧ keys h' a = {[3]}.
Proof. vm_compute. eexists. split; reflexivity. Qed.

(** C9: after [s.Add(x)] the set contains [x], after [s.Remove(x)] it does
    not; the membership of every other element is unchanged; [Len] moves by
    one exactly when the membership of [x] changed. *)
Theorem C9_Add_Remove_Contains_Len :
  ∀ (T : Type) `(Countable T) (h : gmap loc (gmap T ())) (s : loc) (x y : T),
    live h s →
    Contains s x (Add s x h) = true ∧
    Contains s x (Remove s x h) = false ∧
    (y ≠ x → Contains s y (Add s x h) = Contains s y h ∧
             Contains s y (Remove s x h) = Contains s y h) ∧
    Len s (Add s x h) = (if Contains s x h then Len s h else S (Len s h)) ∧
    Len s h = (if Contains s x h then S (Len s (Remove s x h))
               else Len s (Remove s x h)).
Proof.
  intros T ? ? h s x y Hs.
  rewrite !Contains_keys, !Len_keys, keys_Add_eq, keys_Remove_eq by done.
  split_and!.
  - apply bool_decide_eq_true. set_solver.
  - apply bool_decide_eq_false. set_solver.
  - intros Hne. split; apply bool_decide_ext; set_solver.
  - case_bool_decide as Hx.
    + f_equal. set_solver.
    + rewrite size_union by set_solver. by rewrite size_singleton.
  - case_bool_decide as Hx.
    + rewrite size_difference by set_solver. rewrite size_singleton.
      assert (size (keys h s) ≠ 0%nat); [|lia].
      intros Hz%size_empty_inv. set_solver.
    + f_equal. set_solver.
Qed.

Lemma C9_witness :
  live (one_set [1; 2]).2 (one_set [1; 2]).1 ∧
  Contains (one_set [1; 2]).1 7 (Add (one_set [1; 2]).1 7 (one_set [1; 2]).2)
    = true.
Proof.
  split.
  - vm_compute. eauto.
  - apply (proj1 (C9_Add_Remove_Contains_Len Z _
                    (one_set [1; 2]).2 (one_set [1; 2]).1 7 1
                    ltac:(vm_compute; eauto))).
Defined.

(** C10: on every set, the empty one included, [Equals], [IsSubset] and
    [IsSuperset] of the set with itself return, and return [true]. *)
Theorem C10_relations_reflexive :
  ∀ (T : Type) `(Countable T) (h : gmap loc (gmap T ())) (a : loc),
    ((∃ ks, Equals ks a a h = Some true) ∧
     (∃ ks, IsSubset ks a a h = Some true) ∧
     (∃ ks, IsSuperset ks a a h = Some true)) ∧
    (∀ ks r, Equals ks a a h = Some r → r = true) ∧
    (∀ ks r, IsSubset ks a a h = Some r → r = true) ∧
    (∀ ks r, IsSuperset ks a a h = Some r → r = true).
Proof.
  intros T ? ? h a.
  assert (∀ ks r, Equals ks a a h = Some r → r = true) as HE.
  { intros ks r ->%Equals_spec. by apply bool_decide_eq_true. }
  assert (∀ ks r, IsSubset ks a a h = Some r → r = true) as HSub.
  { intros ks r ->%IsSubset_spec. by apply bool_decide_eq_true. }
  assert (∀ ks r, IsSuperset ks a a h = Some r → r = true) as HSup.
  { intros ks r ->%IsSuperset_spec. by apply bool_decide_eq_true. }
  split; [|done]. split_and!.
  - destruct (Equals_total h a a) as (ks & r & Hr). exists ks.
    by rewrite Hr, (HE _ _ Hr).
  - destruct (IsSubset_total h a a) as (ks & r & Hr). exists ks.
    by rewrite Hr, (HSub _ _ Hr).
  - destruct (IsSuperset_total h a a) as (ks & r & Hr). exists ks.
    by rewrite Hr, (HSup _ _ Hr).
Qed.

Lemma C10_witness :
  IsSuperset [2; 3; 1] (one_set [1; 2; 3]).1 (one_set [1; 2; 3]).1
    (one_set [1; 2; 3]).2 = Some true ∧
  Equals [] (one_set []).1 (one_set []).1 (one_set []).2 = Some true ∧
  true = true.
Proof.
  split; [vm_compute; reflexivity|]. split; [vm_compute; reflexivity|].
  apply (proj2 (proj2 (proj2 (C10_relations_reflexive Z _
           (one_set [1; 2; 3]).2 (one_set [1; 2; 3]).1))) [2; 3; 1]).
  vm_compute. reflexivity.
Defined.

(** C5: [A.IsSubset(B)] and [B.IsSubset(A)] are both true exactly when
    [A.Equals(B)] is true (and the three calls return). *)
Theorem C5_subset_both_ways_iff_Equals :
  ∀ (T : Type) `(Countable T) (h : gmap loc (gmap T ())) (a b : loc),
    (∃ ks1 ks2 ks3 r1 r2 r3,
        IsSubset ks1 a b h = Some r1 ∧ IsSubset ks2 b a h = Some r2 ∧
        Equals ks3 a b h = Some r3) ∧
    (∀ ks1 ks2 ks3 r1 r2 r3,
        IsSubset ks1 a b h = Some r1 → IsSubset ks2 b a h = Some r2 →
        Equals ks3 a b h = Some r3 →
        (r1 = true ∧ r2 = true) ↔ r3 = true).
Proof.
  intros T ? ? h a b. split.
  - destruct (IsSubset_total h a b) as (ks1 & r1 & H1).
    destruct (IsSubset_total h b a) as (ks2 & r2 & H2).
    destruct (Equals_total h a b) as (ks3 & r3 & H3).
    by exists ks1, ks2, ks3, r1, r2, r3.
  - intros ks1 ks2 ks3 r1 r2 r3 ->%IsSubset_spec ->%IsSubset_spec
      ->%Equals_spec.
    rewrite !bool_decide_eq_true. set_solver.
Qed.

Lemma C5_witness :
  let a := (two_sets [1; 2] [1; 2; 3]).1.1 in
  let b := (two_sets [1; 2] [1; 2; 3]).1.2 in
  let h := (two_sets [1; 2] [1; 2; 3]).2 in
  (IsSubset [1; 2] a b h = Some true ∧ IsSubset [] b a h = Some false ∧
   Equals [] a b h = Some false) ∧
  ((true = true ∧ false = true) ↔ false = true).
Proof.
  intros a b h. split.
  - vm_compute. by split_and!.
  - apply (proj2 (C5_subset_both_ways_iff_Equals Z _ h a b)
             [1; 2] [] [] true false false); vm_compute; reflexivity.
Defined.

(** C1 (the code at the failing input): for [A = {1,2,3}] and [B = {1,2}],
    [A] contains every element of [B], and [A.IsSuperset(B)] returns [false]
    in every order of iteration; [A.Equals(B)] returns [false] too. *)
Theorem C1_IsSuperset_at_123_12 :
  ∀ (h : gmap loc (gmap Z ())) (a b : loc),
    keys h a = {[1; 2; 3]} → keys h b = {[1; 2]} →
    (∀ x, Contains b x h = true → Contains a x h = true) ∧
    (∃ ks, IsSuperset ks a b h = Some false) ∧
    (∀ ks r, IsSuperset ks a b h = Some r → r = false) ∧
    (∀ ks r, Equals ks a b h = Some r → r = false).
Proof.
  intros h a b Ha Hb.
  assert (keys h a ≠ keys h b) as Hne.
  { rewrite Ha, Hb. intros Heq.
    assert (3 ∈ ({[1; 2]} : gset Z)) as Hin by (rewrite <- Heq; set_solver).
    set_solver. }
  assert (∀ ks r, IsSuperset ks a b h = Some r → r = false) as HS.
  { intros ks r ->%IsSuperset_spec. by apply bool_decide_eq_false. }
  split_and!.
  - intros x. rewrite !Contains_true, Ha, Hb. set_solver.
  - destruct (IsSuperset_total h a b) as (ks & r & Hr). exists ks.
    by rewrite Hr, (HS _ _ Hr).
  - done.
  - intros ks r ->%Equals_spec. by apply bool_decide_eq_false.
Qed.

Lemma C1_witness :
  let a := (two_sets [1; 2; 3] [1; 2]).1.1 in
  let b := (two_sets [1; 2; 3] [1; 2]).1.2 in
  let h := (two_sets [1; 2; 3] [1; 2]).2 in
  (keys h a = {[1; 2; 3]} ∧ keys h b = {[1; 2]}) ∧
  IsSuperset [1; 2; 3] a b h = Some false ∧
  IsSuperset [3] a b h = Some false ∧
  false = false.
Proof.
  intros a b h. split; [split; vm_compute; reflexivity|].
  split; [vm_compute; reflexivity|]. split; [vm_compute; reflexivity|].
  apply (proj1 (proj2 (proj2 (C1_IsSuperset_at_123_12 h a b
           ltac:(vm_compute; reflexivity) ltac:(vm_compute; reflexivity))))
           [1; 2; 3]).
  vm_compute. reflexivity.
Defined.

(** C2, as the code has it: [S.Merge(S)] and [S.Retain(S)] leave the store
    as it was; [S.Xor(S)] and [S.Subtract(S)] leave [S] empty and the rest of
    the store as it was; all four return. *)
Theorem C2_self_operations :
  ∀ (T : Type) `(Countable T) (h : gmap loc (gmap T ())) (s : loc),
    live h s →
    ((∃ ks h', Merge ks s s h = Some h') ∧
     (∃ ks h', Retain ks s s h = Some h') ∧
     (∃ ks h', Xor ks s s h = Some h') ∧
     (∃ ks h', Subtract ks s s h = Some h')) ∧
    (∀ ks h', Merge ks s s h = Some h' → h' = h) ∧
    (∀ ks h', Retain ks s s h = Some h' → h' = h) ∧
    (∀ ks h', Xor ks s s h = Some h' →
       changes_only h s ∅ h' ∧ Len s h' = 0%nat) ∧
    (∀ ks h', Subtract ks s s h = Some h' →
       changes_only h s ∅ h' ∧ Len s h' = 0%nat).
Proof.
  intros T ? ? h s Hs. split_and!.
  - by apply Merge_total.
  - by apply Retain_total.
  - by apply Xor_total.
  - by apply Subtract_total.
  - intros ks h' Hrun%Merge_spec; [|done].
    apply (changes_only_same h s h'); [done|].
    revert Hrun. apply changes_only_ext. set_solver.
  - intros ks h' Hrun%Retain_spec; [|done].
    apply (changes_only_same h s h'); [done|].
    revert Hrun. apply changes_only_ext. set_solver.
  - intros ks h' Hrun%Xor_spec; [|done].
    assert (changes_only h s ∅ h') as Hc
      by (revert Hrun; apply changes_only_ext; set_solver).
    split; [done|]. rewrite Len_keys. destruct Hc as (_ & _ & ->).
    apply size_empty.
  - intros ks h' Hrun%Subtract_spec; [|done].
    assert (changes_only h s ∅ h') as Hc
      by (revert Hrun; apply changes_only_ext; set_solver).
    split; [done|]. rewrite Len_keys. destruct Hc as (_ & _ & ->).
    apply size_empty.
Qed.

Lemma C2_witness :
  let s := (one_set [1; 2]).1 in
  let h := (one_set [1; 2]).2 in
  live h s ∧
  Merge [2; 1] s s h = Some h ∧
  (∃ h', Xor [2; 1] s s h = Some h' ∧ Len s h' = 0%nat).
Proof.
  intros s h.
  assert (live h s) as Hl by (vm_compute; eauto).
  split; [done|]. split; [vm_compute; reflexivity|].
  destruct (Xor [2; 1] s s h) as [h'|] eqn:Hx; [|by vm_compute in Hx].
  exists h'. split; [done|].
  apply (proj1 (proj2 (proj2 (proj2
           (C2_self_operations Z _ h s Hl)))) [2; 1] h' Hx).
Defined.

(** C2 as stated fails: on [S = {1}], [S.Xor(S)] returns with [S] empty, not
    unchanged. *)
Lemma C2_Xor_self_counterexample :
  let s := (one_set [1]).1 in
  let h := (one_set [1]).2 in
  ∃ h', Xor [1] s s h = Some h' ∧
        Contains s 1 h = true ∧ Contains s 1 h' = false ∧ h' ≠ h.
Proof.
  intros s h. vm_compute. eexists. split_and!; [reflexivity..|].
  intros Heq. discriminate Heq.
Qed.

(** C3: membership in the results of the four allocating operations.  [x] is
    in [A.Union(B)] iff it is in [A] or in [B]; in [A.Intersection(B)] iff it
    is in both; in [A.Difference(B)] iff it is in [A] and not in [B]; in
    [A.SymmetricDifference(B)] iff it is in exactly one.  The four calls
    return.  For [A = {1,2,3}] and [B = {3,4,5}] the results are
    [{1,2,3,4,5}] with [Len] 5, [{3}], [{1,2}] and [{1,2,4,5}]. *)
Theorem C3_allocating_operations :
  (∀ (T : Type) `(Countable T) (h : gmap loc (gmap T ())) (a b : loc),
     live h a → live h b →
     ((∃ ks r, Union ks a b h = Some r) ∧
      (∃ ks r, Intersection ks a b h = Some r) ∧
      (∃ ks r, Difference ks a b h = Some r) ∧
      (∃ ks r, SymmetricDifference ks a b h = Some r)) ∧
     (∀ ks u h' x, Union ks a b h = Some (u, h') →
        Contains u x h' = Contains a x h || Contains b x h) ∧
     (∀ ks u h' x, Intersection ks a b h = Some (u, h') →
        Contains u x h' = Contains a x h && Contains b x h) ∧
     (∀ ks u h' x, Difference ks a b h = Some (u, h') →
        Contains u x h' = Contains a x h && negb (Contains b x h)) ∧
     (∀ ks u h' x, SymmetricDifference ks a b h = Some (u, h') →
        Contains u x h' = xorb (Contains a x h) (Contains b x h))) ∧
  (∀ (h : gmap loc (gmap Z ())) (a b : loc),
     live h a → live h b →
     keys h a = {[1; 2; 3]} → keys h b = {[3; 4; 5]} →
     (∀ ks u h', Union ks a b h = Some (u, h') →
        keys h' u = {[1; 2; 3; 4; 5]} ∧ Len u h' = 5%nat) ∧
     (∀ ks u h', Intersection ks a b h = Some (u, h') → keys h' u = {[3]}) ∧
     (∀ ks u h', Difference ks a b h = Some (u, h') → keys h' u = {[1; 2]}) ∧
     (∀ ks u h', SymmetricDifference ks a b h = Some (u, h') →
        keys h' u = {[1; 2; 4; 5]})).
Proof.
  split.
  - intros T ? ? h a b Ha Hb. split_and!.
    + by apply Union_total.
    + by apply Intersection_total.
    + by apply Difference_total.
    + by apply SymmetricDifference_total.
    + intros ks u h' x [_ Hk]%Union_spec%allocates_new; [|done].
      rewrite !Contains_keys, Hk.
      repeat case_bool_decide; simpl; set_solver.
    + intros ks u h' x [_ Hk]%Intersection_spec%allocates_new; [|done..].
      rewrite !Contains_keys, Hk.
      repeat case_bool_decide; simpl; set_solver.
    + intros ks u h' x [_ Hk]%Difference_spec%allocates_new; [|done..].
      rewrite !Contains_keys, Hk.
      repeat case_bool_decide; simpl; set_solver.
    + intros ks u h' x [_ Hk]%SymmetricDifference_spec%allocates_new; [|done].
      rewrite !Contains_keys, Hk.
      repeat case_bool_decide; simpl; set_solver.
  - intros h a b Ha Hb HA HB. split_and!.
    + intros ks u h' [_ Hk]%Union_spec%allocates_new; [|done].
      rewrite Len_keys, Hk, HA, HB. split; vm_compute; reflexivity.
    + intros ks u h' [_ Hk]%Intersection_spec%allocates_new; [|done..].
      rewrite Hk, HA, HB. vm_compute; reflexivity.
    + intros ks u h' [_ Hk]%Difference_spec%allocates_new; [|done..].
      rewrite Hk, HA, HB. vm_compute; reflexivity.
    + intros ks u h' [_ Hk]%SymmetricDifference_spec%allocates_new; [|done].
      rewrite Hk, HA, HB. vm_compute; reflexivity.
Qed.

Lemma C3_witness :
  let a := (two_sets [1; 2; 3] [3; 4; 5]).1.1 in
  let b := (two_sets [1; 2; 3] [3; 4; 5]).1.2 in
  let h := (two_sets [1; 2; 3] [3; 4; 5]).2 in
  (live h a ∧ live h b ∧ keys h a = {[1; 2; 3]} ∧ keys h b = {[3; 4; 5]}) ∧
  ∃ u h', Union [4; 3; 5] a b h = Some (u, h') ∧
          keys h' u = {[1; 2; 3; 4; 5]} ∧ Len u h' = 5%nat.
Proof.
  intros a b h.
  assert (live h a) as Ha by (vm_compute; eauto).
  assert (live h b) as Hb by (vm_compute; eauto).
  assert (keys h a = {[1; 2; 3]}) as HA by (vm_compute; reflexivity).
  assert (keys h b = {[3; 4; 5]}) as HB by (vm_compute; reflexivity).
  split; [done|].
  destruct (Union [4; 3; 5] a b h) as [[u h']|] eqn:Hu;
    [|by vm_compute in Hu].
  exists u, h'. split; [done|].
  apply (proj1 (proj2 C3_allocating_operations h a b Ha Hb HA HB)
           [4; 3; 5] u h' Hu).
Defined.

(** C4: let [c] be a copy of [A] (another live set with the elements of [A],
    distinct from [A] and [B]).  After [c.Merge(B)], [c.Equals(A.Union(B))]
    is true; likewise [Retain] against [Intersection], [Subtract] against
    [Difference] and [Xor] against [SymmetricDifference].  Every call
    returns. *)
Theorem C4_in_place_equals_allocating :
  ∀ (T : Type) `(Countable T) (h : gmap loc (gmap T ())) (a b c : loc),
    live h a → live h b → live h c → c ≠ a → c ≠ b →
    keys h c = keys h a →
    ((∃ ks1 ks2 ks3 h1 u h2, Merge ks1 c b h = Some h1 ∧
        Union ks2 a b h1 = Some (u, h2) ∧ Equals ks3 c u h2 = Some true) ∧
     (∃ ks1 ks2 ks3 h1 u h2, Retain ks1 c b h = Some h1 ∧
        Intersection ks2 a b h1 = Some (u, h2) ∧
        Equals ks3 c u h2 = Some true) ∧
     (∃ ks1 ks2 ks3 h1 u h2, Subtract ks1 c b h = Some h1 ∧
        Difference ks2 a b h1 = Some (u, h2) ∧
        Equals ks3 c u h2 = Some true) ∧
     (∃ ks1 ks2 ks3 h1 u h2, Xor ks1 c b h = Some h1 ∧
        SymmetricDifference ks2 a b h1 = Some (u, h2) ∧
        Equals ks3 c u h2 = Some true)) ∧
    (∀ ks1 ks2 ks3 h1 u h2 r, Merge ks1 c b h = Some h1 →
       Union ks2 a b h1 = Some (u, h2) → Equals ks3 c u h2 = Some r →
       r = true) ∧
    (∀ ks1 ks2 ks3 h1 u h2 r, Retain ks1 c b h = Some h1 →
       Intersection ks2 a b h1 = Some (u, h2) → Equals ks3 c u h2 = Some r →
       r = true) ∧
    (∀ ks1 ks2 ks3 h1 u h2 r, Subtract ks1 c b h = Some h1 →
       Difference ks2 a b h1 = Some (u, h2) → Equals ks3 c u h2 = Some r →
       r = true) ∧
    (∀ ks1 ks2 ks3 h1 u h2 r, Xor ks1 c b h = Some h1 →
       SymmetricDifference ks2 a b h1 = Some (u, h2) →
       Equals ks3 c u h2 = Some r → r = true).
Proof.
  intros T ? ? h a b c Ha Hb Hc Hca Hcb Hcopy.
  assert (∀ X h1, changes_only h c X h1 →
            live h1 a ∧ live h1 b ∧
            keys h1 a = keys h a ∧ keys h1 b = keys h b) as Hold.
  { intros X h1 Hch.
    destruct (changes_only_old _ _ _ _ a Hch Ha) as [? ?]; [done|].
    destruct (changes_only_old _ _ _ _ b Hch Hb) as [? ?]; [done|].
    done. }
  assert (∀ ks1 ks2 ks3 h1 u h2 r, Merge ks1 c b h = Some h1 →
            Union ks2 a b h1 = Some (u, h2) → Equals ks3 c u h2 = Some r →
            r = true) as HM.
  { intros ks1 ks2 ks3 h1 u h2 r H1%Merge_spec H2 H3; [|done].
    destruct (Hold _ _ H1) as (Ha1 & Hb1 & HA & HB).
    apply Union_spec in H2; [|done]. rewrite HA, HB, <- Hcopy in H2.
    by eapply Equals_inplace_allocated. }
  assert (∀ ks1 ks2 ks3 h1 u h2 r, Retain ks1 c b h = Some h1 →
            Intersection ks2 a b h1 = Some (u, h2) →
            Equals ks3 c u h2 = Some r → r = true) as HR.
  { intros ks1 ks2 ks3 h1 u h2 r H1%Retain_spec H2 H3; [|done].
    destruct (Hold _ _ H1) as (Ha1 & Hb1 & HA & HB).
    apply Intersection_spec in H2; [|done..]. rewrite HA, HB, <- Hcopy in H2.
    by eapply Equals_inplace_allocated. }
  assert (∀ ks1 ks2 ks3 h1 u h2 r, Subtract ks1 c b h = Some h1 →
            Difference ks2 a b h1 = Some (u, h2) →
            Equals ks3 c u h2 = Some r → r = true) as HS.
  { intros ks1 ks2 ks3 h1 u h2 r H1%Subtract_spec H2 H3; [|done].
    destruct (Hold _ _ H1) as (Ha1 & Hb1 & HA & HB).
    apply Difference_spec in H2; [|done..]. rewrite HA, HB, <- Hcopy in H2.
    by eapply Equals_inplace_allocated. }
  assert (∀ ks1 ks2 ks3 h1 u h2 r, Xor ks1 c b h = Some h1 →
            SymmetricDifference ks2 a b h1 = Some (u, h2) →
            Equals ks3 c u h2 = Some r → r = true) as HX.
  { intros ks1 ks2 ks3 h1 u h2 r H1%Xor_spec H2 H3; [|done].
    destruct (Hold _ _ H1) as (Ha1 & Hb1 & HA & HB).
    apply SymmetricDifference_spec in H2; [|done].
    rewrite HA, HB, <- Hcopy in H2.
    by eapply Equals_inplace_allocated. }
  split; [|done]. split_and!.
  - destruct (Merge_total h c b Hc) as (ks1 & h1 & H1).
    destruct (Hold _ _ (Merge_spec _ _ _ _ _ Hc H1)) as (Ha1 & Hb1 & _).
    destruct (Union_total h1 a b Hb1) as (ks2 & [u h2] & H2).
    destruct (Equals_total h2 c u) as (ks3 & r & H3).
    exists ks1, ks2, ks3, h1, u, h2.
    by rewrite <- (HM _ _ _ _ _ _ _ H1 H2 H3).
  - destruct (Retain_total h c b Hc) as (ks1 & h1 & H1).
    destruct (Hold _ _ (Retain_spec _ _ _ _ _ Hc H1)) as (Ha1 & Hb1 & _).
    destruct (Intersection_total h1 a b Ha1 Hb1) as (ks2 & [u h2] & H2).
    destruct (Equals_total h2 c u) as (ks3 & r & H3).
    exists ks1, ks2, ks3, h1, u, h2.
    by rewrite <- (HR _ _ _ _ _ _ _ H1 H2 H3).
  - destruct (Subtract_total h c b Hc) as (ks1 & h1 & H1).
    destruct (Hold _ _ (Subtract_spec _ _ _ _ _ Hc H1)) as (Ha1 & Hb1 & _).
    destruct (Difference_total h1 a b Ha1 Hb1) as (ks2 & [u h2] & H2).
    destruct (Equals_total h2 c u) as (ks3 & r & H3).
    exists ks1, ks2, ks3, h1, u, h2.
    by rewrite <- (HS _ _ _ _ _ _ _ H1 H2 H3).
  - destruct (Xor_total h c b Hc) as (ks1 & h1 & H1).
    destruct (Hold _ _ (Xor_spec _ _ _ _ _ Hc H1)) as (Ha1 & Hb1 & _).
    destruct (SymmetricDifference_total h1 a b Hb1) as (ks2 & [u h2] & H2).
    destruct (Equals_total h2 c u) as (ks3 & r & H3).
    exists ks1, ks2, ks3, h1, u, h2.
    by rewrite <- (HX _ _ _ _ _ _ _ H1 H2 H3).
Qed.

Lemma C4_witness :
  let a := (two_sets [1; 2; 3] [3; 4; 5]).1.1 in
  let b := (two_sets [1; 2; 3] [3; 4; 5]).1.2 in
  let c := (maps_Clone a (two_sets [1; 2; 3] [3; 4; 5]).2).1 in
  let h := (maps_Clone a (two_sets [1; 2; 3] [3; 4; 5]).2).2 in
  (live h a ∧ live h b ∧ live h c ∧ c ≠ a ∧ c ≠ b ∧ keys h c = keys h a) ∧
  (h1 ← Xor [4; 3; 5] c b h;
   r ← SymmetricDifference [5; 4; 3] a b h1;
   Equals [2; 5; 1; 4] c r.1 r.2) = Some true ∧
  (∀ ks1 ks2 ks3 h1 u h2 r, Xor ks1 c b h = Some h1 →
     SymmetricDifference ks2 a b h1 = Some (u, h2) →
     Equals ks3 c u h2 = Some r → r = true).
Proof.
  intros a b c h.
  assert (live h a) as Ha by (vm_compute; eauto).
  assert (live h b) as Hb by (vm_compute; eauto).
  assert (live h c) as Hc by (vm_compute; eauto).
  assert (c ≠ a) as Hca by (vm_compute; discriminate).
  assert (c ≠ b) as Hcb by (vm_compute; discriminate).
  assert (keys h c = keys h a) as Hk by (vm_compute; reflexivity).
  split; [done|]. split; [vm_compute; reflexivity|].
  apply (proj2 (proj2 (proj2 (proj2
           (C4_in_place_equals_allocating Z _ h a b c Ha Hb Hc Hca Hcb Hk))))).
Defined.

(** C6: [Union], [Intersection] and [SymmetricDifference] commute up to
    [Equals]: the set made by [A.op(B)] equals the set made by [B.op(A)].
    Every call returns. *)
Theorem C6_commutative_up_to_Equals :
  ∀ (T : Type) `(Countable T) (h : gmap loc (gmap T ())) (a b : loc),
    live h a → live h b →
    ((∃ ks1 ks2 ks3 u1 h1 u2 h2, Union ks1 a b h = Some (u1, h1) ∧
        Union ks2 b a h1 = Some (u2, h2) ∧ Equals ks3 u1 u2 h2 = Some true) ∧
     (∃ ks1 ks2 ks3 u1 h1 u2 h2, Intersection ks1 a b h = Some (u1, h1) ∧
        Intersection ks2 b a h1 = Some (u2, h2) ∧
        Equals ks3 u1 u2 h2 = Some true) ∧
     (∃ ks1 ks2 ks3 u1 h1 u2 h2,
        SymmetricDifference ks1 a b h = Some (u1, h1) ∧
        SymmetricDifference ks2 b a h1 = Some (u2, h2) ∧
        Equals ks3 u1 u2 h2 = Some true)) ∧
    (∀ ks1 ks2 ks3 u1 h1 u2 h2 r, Union ks1 a b h = Some (u1, h1) →
       Union ks2 b a h1 = Some (u2, h2) → Equals ks3 u1 u2 h2 = Some r →
       r = true) ∧
    (∀ ks1 ks2 ks3 u1 h1 u2 h2 r, Intersection ks1 a b h = Some (u1, h1) →
       Intersection ks2 b a h1 = Some (u2, h2) →
       Equals ks3 u1 u2 h2 = Some r → r = true) ∧
    (∀ ks1 ks2 ks3 u1 h1 u2 h2 r,
       SymmetricDifference ks1 a b h = Some (u1, h1) →
       SymmetricDifference ks2 b a h1 = Some (u2, h2) →
       Equals ks3 u1 u2 h2 = Some r → r = true).
Proof.
  intros T ? ? h a b Ha Hb.
  assert (∀ u1 X h1, allocates h u1 X h1 →
            live h1 a ∧ live h1 b ∧
            keys h1 a = keys h a ∧ keys h1 b = keys h b) as Hold.
  { intros u1 X h1 Hal.
    destruct (allocates_old _ _ _ _ a Hal Ha) as (_ & ? & ? & _).
    destruct (allocates_old _ _ _ _ b Hal Hb) as (_ & ? & ? & _).
    done. }
  assert (∀ ks1 ks2 ks3 u1 h1 u2 h2 r, Union ks1 a b h = Some (u1, h1) →
            Union ks2 b a h1 = Some (u2, h2) → Equals ks3 u1 u2 h2 = Some r →
            r = true) as HU.
  { intros ks1 ks2 ks3 u1 h1 u2 h2 r H1%Union_spec H2 H3; [|done].
    destruct (Hold _ _ _ H1) as (Ha1 & Hb1 & HA & HB).
    apply Union_spec in H2; [|done]. rewrite HA, HB in H2.
    eapply Equals_allocated_twice; [exact H1| |exact H3].
    revert H2. apply allocates_ext. set_solver. }
  assert (∀ ks1 ks2 ks3 u1 h1 u2 h2 r,
            Intersection ks1 a b h = Some (u1, h1) →
            Intersection ks2 b a h1 = Some (u2, h2) →
            Equals ks3 u1 u2 h2 = Some r → r = true) as HI.
  { intros ks1 ks2 ks3 u1 h1 u2 h2 r H1%Intersection_spec H2 H3; [|done..].
    destruct (Hold _ _ _ H1) as (Ha1 & Hb1 & HA & HB).
    apply Intersection_spec in H2; [|done..]. rewrite HA, HB in H2.
    eapply Equals_allocated_twice; [exact H1| |exact H3].
    revert H2. apply allocates_ext. set_solver. }
  assert (∀ ks1 ks2 ks3 u1 h1 u2 h2 r,
            SymmetricDifference ks1 a b h = Some (u1, h1) →
            SymmetricDifference ks2 b a h1 = Some (u2, h2) →
            Equals ks3 u1 u2 h2 = Some r → r = true) as HS.
  { intros ks1 ks2 ks3 u1 h1 u2 h2 r H1%SymmetricDifference_spec H2 H3;
      [|done].
    destruct (Hold _ _ _ H1) as (Ha1 & Hb1 & HA & HB).
    apply SymmetricDifference_spec in H2; [|done]. rewrite HA, HB in H2.
    eapply Equals_allocated_twice; [exact H1| |exact H3].
    revert H2. apply allocates_ext. set_solver. }
  split; [|done]. split_and!.
  - destruct (Union_total h a b Hb) as (ks1 & [u1 h1] & H1).
    destruct (Hold _ _ _ (Union_spec _ _ _ _ _ _ Hb H1)) as (Ha1 & Hb1 & _).
    destruct (Union_total h1 b a Ha1) as (ks2 & [u2 h2] & H2).
    destruct (Equals_total h2 u1 u2) as (ks3 & r & H3).
    exists ks1, ks2, ks3, u1, h1, u2, h2.
    by rewrite <- (HU _ _ _ _ _ _ _ _ H1 H2 H3).
  - destruct (Intersection_total h a b Ha Hb) as (ks1 & [u1 h1] & H1).
    destruct (Hold _ _ _ (Intersection_spec _ _ _ _ _ _ Ha Hb H1))
      as (Ha1 & Hb1 & _).
    destruct (Intersection_total h1 b a Hb1 Ha1) as (ks2 & [u2 h2] & H2).
    destruct (Equals_total h2 u1 u2) as (ks3 & r & H3).
    exists ks1, ks2, ks3, u1, h1, u2, h2.
    by rewrite <- (HI _ _ _ _ _ _ _ _ H1 H2 H3).
  - destruct (SymmetricDifference_total h a b Hb) as (ks1 & [u1 h1] & H1).
    destruct (Hold _ _ _ (SymmetricDifference_spec _ _ _ _ _ _ Hb H1))
      as (Ha1 & Hb1 & _).
    destruct (SymmetricDifference_total h1 b a Ha1) as (ks2 & [u2 h2] & H2).
    destruct (Equals_total h2 u1 u2) as (ks3 & r & H3).
    exists ks1, ks2, ks3, u1, h1, u2, h2.
    by rewrite <- (HS _ _ _ _ _ _ _ _ H1 H2 H3).
Qed.

Lemma C6_witness :
  let a := (two_sets [1; 2; 3] [3; 4; 5]).1.1 in
  let b := (two_sets [1; 2; 3] [3; 4; 5]).1.2 in
  let h := (two_sets [1; 2; 3] [3; 4; 5]).2 in
  (live h a ∧ live h b) ∧
  (r1 ← Intersection [5; 3; 4] a b h;
   r2 ← Intersection [2; 1; 3] b a r1.2;
   Equals [3] r1.1 r2.1 r2.2) = Some true ∧
  (∀ ks1 ks2 ks3 u1 h1 u2 h2 r, Intersection ks1 a b h = Some (u1, h1) →
     Intersection ks2 b a h1 = Some (u2, h2) →
     Equals ks3 u1 u2 h2 = Some r → r = true).
Proof.
  intros a b h.
  assert (live h a) as Ha by (vm_compute; eauto).
  assert (live h b) as Hb by (vm_compute; eauto).
  split; [done|]. split; [vm_compute; reflexivity|].
  apply (proj1 (proj2 (proj2
           (C6_commutative_up_to_Equals Z _ h a b Ha Hb)))).
Defined.

(** C7, as the code has it: the allocating operations return new storage,
    leave [A], [B] and every other map of the store as they were, and later
    writes through the result and through the operands do not reach each
    other; the in-place operations change the receiver's map only, so the
    argument is as it was whenever it is not the receiver itself.  Every
    call returns. *)
Theorem C7_frame :
  ∀ (T : Type) `(Countable T) (h : gmap loc (gmap T ())) (a b : loc),
    live h a → live h b →
    ((∃ ks r, Union ks a b h = Some r) ∧
     (∃ ks r, Intersection ks a b h = Some r) ∧
     (∃ ks r, Difference ks a b h = Some r) ∧
     (∃ ks r, SymmetricDifference ks a b h = Some r) ∧
     (∃ ks h', Merge ks a b h = Some h') ∧
     (∃ ks h', Retain ks a b h = Some h') ∧
     (∃ ks h', Subtract ks a b h = Some h') ∧
     (∃ ks h', Xor ks a b h = Some h')) ∧
    (∀ ks u h',
       Union ks a b h = Some (u, h') ∨ Intersection ks a b h = Some (u, h') ∨
       Difference ks a b h = Some (u, h') ∨
       SymmetricDifference ks a b h = Some (u, h') →
       u ≠ a ∧ u ≠ b ∧ h' !! a = h !! a ∧ h' !! b = h !! b ∧
       independent_result h u h') ∧
    (∀ ks h',
       Merge ks a b h = Some h' ∨ Retain ks a b h = Some h' ∨
       Subtract ks a b h = Some h' ∨ Xor ks a b h = Some h' →
       (∀ l, l ≠ a → h' !! l = h !! l) ∧ (b ≠ a → h' !! b = h !! b)).
Proof.
  intros T ? ? h a b Ha Hb. split_and!.
  - by apply Union_total.
  - by apply Intersection_total.
  - by apply Difference_total.
  - by apply SymmetricDifference_total.
  - by apply Merge_total.
  - by apply Retain_total.
  - by apply Subtract_total.
  - by apply Xor_total.
  - intros ks u h' [Hr|[Hr|[Hr|Hr]]].
    + apply Union_spec in Hr; [|done].
      by eapply allocates_independent.
    + apply Intersection_spec in Hr; [|done..].
      by eapply allocates_independent.
    + apply Difference_spec in Hr; [|done..].
      by eapply allocates_independent.
    + apply SymmetricDifference_spec in Hr; [|done].
      by eapply allocates_independent.
  - intros ks h' Hr.
    assert (∃ X, changes_only h a X h') as [X (Hfr & _ & _)].
    { destruct Hr as [Hr|[Hr|[Hr|Hr]]]; eexists.
      - by eapply Merge_spec.
      - by eapply Retain_spec.
      - by eapply Subtract_spec.
      - by eapply Xor_spec. }
    split; [done|]. intros Hne. by apply Hfr.
Qed.

Lemma C7_witness :
  let a := (two_sets [1; 2; 3] [2; 3]).1.1 in
  let b := (two_sets [1; 2; 3] [2; 3]).1.2 in
  let h := (two_sets [1; 2; 3] [2; 3]).2 in
  (live h a ∧ live h b ∧ b ≠ a) ∧
  ∃ h', Subtract [3; 1; 2] a b h = Some h' ∧ keys h' a = {[1]} ∧
        h' !! b = h !! b.
Proof.
  intros a b h.
  assert (live h a) as Ha by (vm_compute; eauto).
  assert (live h b) as Hb by (vm_compute; eauto).
  assert (b ≠ a) as Hne by (vm_compute; discriminate).
  split; [done|].
  destruct (Subtract [3; 1; 2] a b h) as [h'|] eqn:Hrun;
    [|by vm_compute in Hrun].
  exists h'. split; [done|]. split.
  - revert Hrun. vm_compute. by intros [= <-].
  - apply (proj2 (proj2 (proj2 (C7_frame Z _ h a b Ha Hb)) [3; 1; 2] h'
             (or_intror (or_intror (or_introl Hrun)))) Hne).
Defined.

(** C7 as stated fails when the argument is the receiver: on [S = {1}],
    [S.Subtract(S)] returns with its argument [S] emptied. *)
Lemma C7_Subtract_self_counterexample :
  let s := (one_set [1]).1 in
  let h := (one_set [1]).2 in
  ∃ h', Subtract [1] s s h = Some h' ∧ h' !! s ≠ h !! s ∧
        Contains s 1 h = true ∧ Contains s 1 h' = false.
Proof.
  intros s h. vm_compute. eexists. split_and!; [reflexivity| |reflexivity..].
  intros Heq. discriminate Heq.
Qed.

(** C8: [String()] returns, and what it returns is ["Set{"], then the
    elements converted one by one and joined with [", "], then ["}"]: each
    element of the set once, in the order the runtime produced them.  On the
    empty set that is ["Set{}"], on [{1}] it is ["Set{1}"]. *)
Theorem C8_String_format :
  (∀ (T : Type) `(Countable T) (fmt_v : T → string)
     (h : gmap loc (gmap T ())) (s : loc),
     (∃ ks r, String fmt_v ks s h = Some r) ∧
     (∀ ks r, String fmt_v ks s h = Some r →
        ks ≡ₚ elements (keys h s) ∧
        r = ("Set{" +:+ strings_Join (fmt_v <$> ks) ", " +:+ "}")%string) ∧
     (keys h s = ∅ →
        ∀ ks r, String fmt_v ks s h = Some r → r = "Set{}"%string)) ∧
  (∀ (h : gmap loc (gmap Z ())) (s : loc),
     keys h s = {[1]} →
     ∀ ks r, String fmt_int ks s h = Some r → r = "Set{1}"%string).
Proof.
  split.
  - intros T ? ? fmt_v h s. split_and!.
    + exists (elements (keys h s)). eexists. by apply String_spec.
    + intros ks r. by rewrite String_spec.
    + intros Hk ks r [Hp ->]%String_spec.
      rewrite Hk, elements_empty in Hp. apply Permutation_nil_r in Hp.
      by subst.
  - intros h s Hk ks r [Hp ->]%String_spec.
    rewrite Hk, elements_singleton in Hp.
    apply Permutation_singleton_r in Hp. by subst.
Qed.

Lemma C8_witness :
  (keys (one_set [1]).2 (one_set [1]).1 = {[1]} ∧
   String fmt_int [1] (one_set [1]).1 (one_set [1]).2
     = Some "Set{1}"%string) ∧
  "Set{1}"%string = "Set{1}"%string ∧
  String fmt_int [2; 1; 3] (one_set [1; 2; 3]).1 (one_set [1; 2; 3]).2
    = Some "Set{2, 1, 3}"%string.
Proof.
  split; [split; vm_compute; reflexivity|].
  split; [|vm_compute; reflexivity].
  apply (proj2 C8_String_format (one_set [1]).2 (one_set [1]).1
           ltac:(vm_compute; reflexivity) [1]).
  vm_compute. reflexivity.
Defined.

(** * Further properties of hashset.go *)

Section Laws.
Context {T : Type} `{Countable T}.
Implicit Types (h : gmap loc (gmap T ())) (set other newset : loc).
Implicit Types (ks : list T).

Lemma Equals_same_keys ks h set other r :
  keys h set = keys h other → Equals ks set other h = Some r → r = true.
Proof. intros Hk ->%Equals_spec. by apply bool_decide_eq_true. Qed.

Lemma Equals_returns_true h set other :
  keys h set = keys h other → ∃ ks, Equals ks set other h = Some true.
Proof.
  intros Hk. destruct (Equals_total h set other) as (ks & r & Hr).
  exists ks. by rewrite Hr, (Equals_same_keys _ _ _ _ _ Hk Hr).
Qed.

Lemma Len_zero_keys set h : Len set h = 0%nat ↔ keys h set = ∅.
Proof.
  rewrite Len_keys. split.
  - intros Hz. apply leibniz_equiv. by apply size_empty_inv.
  - intros ->. apply size_empty.
Qed.

Lemma changes_only_Add_Remove h set x :
  live h set → x ∉ keys h set → Remove set x (Add set x h) = h.
Proof.
  intros Hs Hx. apply (changes_only_same h set); [done|].
  pose proof (changes_only_Remove _ _ _ _ x
                (changes_only_Add _ _ _ _ x (changes_only_refl h set Hs)))
    as Hc.
  revert Hc. apply changes_only_ext. set_solver.
Qed.

Lemma changes_only_Remove_Add h set x :
  live h set → x ∈ keys h set → Add set x (Remove set x h) = h.
Proof.
  intros Hs Hx. apply (changes_only_same h set); [done|].
  pose proof (changes_only_Add _ _ _ _ x
                (changes_only_Remove _ _ _ _ x (changes_only_refl h set Hs)))
    as Hc.
  revert Hc. apply changes_only_ext. set_at x.
Qed.

Lemma size_union_intersection (A B : gset T) :
  (size (A ∪ B) + size (A ∩ B) = size A + size B)%nat.
Proof.
  rewrite size_union_alt.
  assert (size B = (size (B ∖ A) + size (A ∩ B))%nat) as ->; [|lia].
  rewrite <- size_union by set_solver. f_equal.
  apply set_eq. intros x. destruct (decide (x ∈ A)); set_solver.
Qed.

Lemma size_difference_intersection (A B : gset T) :
  (size (A ∖ B) + size (A ∩ B) = size A)%nat.
Proof.
  rewrite <- size_union by set_solver. f_equal.
  apply set_eq. intros x. destruct (decide (x ∈ B)); set_solver.
Qed.

(** What remains true of the older sets after an allocating operation, and
    after an in-place one. *)
Lemma allocates_facts h u X h' :
  allocates h u X h' →
  live h' u ∧ keys h' u = X ∧
  (∀ l, live h l → live h' l) ∧ (∀ l, live h l → keys h' l = keys h l).
Proof.
  intros Hal. destruct (allocates_new _ _ _ _ Hal) as [? ?].
  split_and!; [done..| |]; intros l Hl;
    by destruct (allocates_old _ _ _ _ l Hal Hl) as (_ & ? & ? & _).
Qed.

Lemma changes_only_facts h set X h' :
  changes_only h set X h' →
  live h' set ∧ keys h' set = X ∧
  (∀ l, live h l → live h' l) ∧ (∀ l, l ≠ set → keys h' l = keys h l).
Proof.
  intros Hc. pose proof Hc as (_ & ? & ?). split_and!; [done..| |].
  - intros l Hl. by eapply changes_only_live.
  - intros l Hl. by eapply changes_only_keys.
Qed.

Lemma changes_only_trans h set X h1 Y h2 :
  changes_only h set X h1 → changes_only h1 set Y h2 →
  changes_only h set Y h2.
Proof.
  intros (Hfr1 & _ & _) (Hfr2 & Hlive & Hk). split_and!; [|done..].
  intros l Hl. rewrite Hfr2 by done. by apply Hfr1.
Qed.

(** The keys of the argument after an in-place operation that left the
    receiver with the keys [X]. *)
Lemma changes_only_other h set other X h' :
  changes_only h set X h' →
  keys h' other = if decide (other = set) then X else keys h other.
Proof.
  intros Hc. case_decide as Heq.
  - subst. by destruct Hc as (_ & _ & ?).
  - by eapply changes_only_keys.
Qed.

(** [All] under [collect] keeps [All_inv] and stops in [All_stop]. *)
Lemma All_collect_body h set (more : T → list T → bool) :
  body_ok (λ _ : list T, deref h set)
    (λ k s, let '(s', go_on) := collect more k s in
            if go_on then inl s' else inr s')
    (All_inv h set) (All_stop h set).
Proof.
  intros must k acc [Hnd Hset] Hsub Hk. fold (keys h set) in *.
  unfold collect.
  assert (k ∉ acc) as Hnin.
  { intros Hin. assert (k ∈ (list_to_set acc : gset T)) as Hin'
      by by apply elem_of_list_to_set.
    set_solver. }
  assert (NoDup (acc ++ [k])) as Hnd'.
  { apply NoDup_app. split_and!; [done| |apply NoDup_singleton].
    intros x Hx ->%list_elem_of_singleton. done. }
  destruct (more k acc); simpl.
  - split; [set_solver|]. split; [done|]. split; [done|].
    rewrite list_to_set_app_L, Hset. simpl. set_at k.
  - split_and!; [done|by destruct acc|].
    intros x [Hx| ->%list_elem_of_singleton]%elem_of_app; [|set_solver].
    assert (x ∈ (list_to_set acc : gset T)) as Hx'
      by by apply elem_of_list_to_set.
    set_solver.
Qed.

Lemma All_collect_result h set (more : T → list T → bool) ks acc :
  All (λ _ : list T, h) set (collect more) ks [] = Some acc →
  NoDup acc ∧ ∀ x, x ∈ acc → x ∈ keys h set.
Proof.
  unfold All, range.
  destruct (range_from _ _ ks _ ∅ []) as [out|] eqn:Hrun; [|done].
  apply (range_from_inv _ _ _ _ (All_collect_body h set more)) in Hrun.
  - destruct out as [acc'|acc']; intros [= <-].
    + destruct Hrun as [Hnd Hset]. split; [done|]. intros x Hx.
      assert (x ∈ (list_to_set acc' : gset T)) as Hx'
        by by apply elem_of_list_to_set.
      set_solver.
    + by destruct Hrun as (? & _ & ?).
  - split; [constructor|]. unfold keys. set_solver.
  - done.
Qed.

Lemma All_collect_total h set (more : T → list T → bool) :
  ∃ ks acc, All (λ _ : list T, h) set (collect more) ks [] = Some acc.
Proof.
  destruct (range_from_total _ _ _ _ (All_collect_body h set more)
              (dom (deref h set)) []) as (ks & out & Hrun).
  - split; [constructor|]. unfold keys. set_solver.
  - done.
  - exists ks. unfold All, range. rewrite Hrun. destruct out; eauto.
Qed.

(** A loop whose body never returns runs the same whatever the type of the
    value it could have returned. *)
Lemma range_from_no_return {St R} (cur : St → gmap T ()) (f : T → St → St)
    ks :
  ∀ must created s,
    range_from cur (λ k s, inl (f k s) : St + R) ks must created s
    = (λ out : St + Empty_set,
         match out return St + R with
         | inl s' => inl s'
         | inr r => match r with end
         end)
        <$> range_from cur (λ k s, inl (f k s) : St + Empty_set)
              ks must created s.
Proof.
  induction ks as [|k ks IH]; intros must created s; simpl.
  - by case_decide.
  - case_decide; [|done]. apply IH.
Qed.

Lemma All_collect_all h set ks acc :
  All (λ _ : list T, h) set (collect (λ _ _, true)) ks [] = Some acc ↔
  Elements ks set h = Some acc.
Proof.
  unfold All, Elements, range_all, range, collect.
  rewrite (range_from_no_return (R := list T) (λ _ : list T, deref h set)
             (λ k s, s ++ [k]) ks).
  destruct (range_from _ _ ks _ ∅ []) as [[acc'|[]]|]; simpl; done.
Qed.
End Laws.

(** X1: [NewHashSet()] makes an empty set: its [Len] is 0 and it contains no
    element; its reference is new and every map of the store is as it was. *)
Theorem X1_NewHashSet_empty :
  ∀ (T : Type) `(Countable T) (h : gmap loc (gmap T ())) (s : loc)
    (h' : gmap loc (gmap T ())),
    NewHashSet h = (s, h') →
    Len s h' = 0%nat ∧ (∀ x, Contains s x h' = false) ∧
    h !! s = None ∧ live h' s ∧ (∀ l, l ≠ s → h' !! l = h !! l).
Proof.
  intros T ? ? h s h' [= <- <-].
  pose proof (changes_only_alloc h (∅ : gmap T ())) as (Hfr & Hlive & Hk).
  rewrite dom_empty_L in Hk. split_and!.
  - by apply Len_zero_keys.
  - intros x. apply Contains_false. rewrite Hk. set_solver.
  - apply not_elem_of_dom, is_fresh.
  - done.
  - done.
Qed.

Lemma X1_witness :
  NewHashSet (one_set [4]).2 = (2%positive, (NewHashSet (one_set [4]).2).2) ∧
  Len 2%positive (NewHashSet (one_set [4]).2).2 = 0%nat.
Proof.
  split; [vm_compute; reflexivity|].
  apply (proj1 (X1_NewHashSet_empty Z _ (one_set [4]).2 2%positive
                  (NewHashSet (one_set [4]).2).2
                  ltac:(vm_compute; reflexivity))).
Defined.

(** X2: [Elements()] returns, and the slice it returns holds every element of
    the set exactly once: it has [Len()] entries, no entry twice, and [x] is
    in it iff [Contains(x)]. *)
Theorem X2_Elements_once_each :
  ∀ (T : Type) `(Countable T) (h : gmap loc (gmap T ())) (s : loc),
    (∃ ks l, Elements ks s h = Some l) ∧
    (∀ ks l, Elements ks s h = Some l →
       length l = Len s h ∧ NoDup l ∧
       ∀ x, x ∈ l ↔ Contains s x h = true).
Proof.
  intros T ? ? h s. split.
  - exists (elements (keys h s)), (elements (keys h s)).
    by apply Elements_spec.
  - intros ks l [Hp ->]%Elements_spec. split_and!.
    + rewrite Hp, Len_keys. done.
    + rewrite Hp. apply NoDup_elements.
    + intros x. rewrite Hp, elem_of_elements. symmetry.
      apply Contains_true.
Qed.

Lemma X2_witness :
  Elements [3; 1; 2] (one_set [1; 2; 3]).1 (one_set [1; 2; 3]).2
    = Some [3; 1; 2] ∧
  length [3; 1; 2] = Len (one_set [1; 2; 3]).1 (one_set [1; 2; 3]).2.
Proof.
  split; [vm_compute; reflexivity|].
  apply (proj1 (proj2 (X2_Elements_once_each Z _
                          (one_set [1; 2; 3]).2 (one_set [1; 2; 3]).1)
                  [3; 1; 2] [3; 1; 2] ltac:(vm_compute; reflexivity))).
Defined.

(** X3: adding an element that is present and removing one that is absent
    leave the whole store as it was; so [Add] and [Remove] are idempotent. *)
Theorem X3_Add_Remove_no_op :
  ∀ (T : Type) `(Countable T) (h : gmap loc (gmap T ())) (s : loc) (x : T),
    live h s →
    (Contains s x h = true → Add s x h = h) ∧
    (Contains s x h = false → Remove s x h = h) ∧
    Add s x (Add s x h) = Add s x h ∧
    Remove s x (Remove s x h) = Remove s x h.
Proof.
  intros T ? ? h s x Hs. split_and!.
  - intros Hx%Contains_true. by apply Add_present.
  - intros Hx%Contains_false. by apply Remove_absent.
  - apply Add_present. rewrite keys_Add_eq by done. set_solver.
  - apply Remove_absent. rewrite keys_Remove_eq. set_solver.
Qed.

Lemma X3_witness :
  (live (one_set [1; 2]).2 (one_set [1; 2]).1 ∧
   Contains (one_set [1; 2]).1 2 (one_set [1; 2]).2 = true) ∧
  Add (one_set [1; 2]).1 2 (one_set [1; 2]).2 = (one_set [1; 2]).2.
Proof.
  split; [split; vm_compute; eauto|].
  apply (proj1 (X3_Add_Remove_no_op Z _ (one_set [1; 2]).2
                  (one_set [1; 2]).1 2 ltac:(vm_compute; eauto))).
  vm_compute. reflexivity.
Defined.

(** X4: [Add] and [Remove] undo each other: removing an element just added
    to a set that did not have it, or adding back an element just removed from
    a set that had it, gives back the store as it was. *)
Theorem X4_Add_Remove_round_trip :
  ∀ (T : Type) `(Countable T) (h : gmap loc (gmap T ())) (s : loc) (x : T),
    live h s →
    (Contains s x h = false → Remove s x (Add s x h) = h) ∧
    (Contains s x h = true → Add s x (Remove s x h) = h).
Proof.
  intros T ? ? h s x Hs. split.
  - intros Hx%Contains_false. by apply changes_only_Add_Remove.
  - intros Hx%Contains_true. by apply changes_only_Remove_Add.
Qed.

Lemma X4_witness :
  (live (one_set [1; 2]).2 (one_set [1; 2]).1 ∧
   Contains (one_set [1; 2]).1 9 (one_set [1; 2]).2 = false) ∧
  Remove (one_set [1; 2]).1 9 (Add (one_set [1; 2]).1 9 (one_set [1; 2]).2)
    = (one_set [1; 2]).2.
Proof.
  split; [split; vm_compute; eauto|].
  apply (proj1 (X4_Add_Remove_round_trip Z _ (one_set [1; 2]).2
                  (one_set [1; 2]).1 9 ltac:(vm_compute; eauto))).
  vm_compute. reflexivity.
Defined.

(** X5: [A.Equals(B)] returns, and returns [true] exactly when [A] and [B]
    contain the same elements; its answer does not depend on which of the two
    is the receiver, and equality with a common third set is passed on. *)
Theorem X5_Equals_same_elements :
  ∀ (T : Type) `(Countable T) (h : gmap loc (gmap T ())) (a b c : loc),
    (∃ ks r, Equals ks a b h = Some r) ∧
    (∀ ks r, Equals ks a b h = Some r →
       r = true ↔ ∀ x, Contains a x h = Contains b x h) ∧
    (∀ ks1 ks2 r1 r2, Equals ks1 a b h = Some r1 →
       Equals ks2 b a h = Some r2 → r1 = r2) ∧
    (∀ ks1 ks2 ks3 r, Equals ks1 a b h = Some true →
       Equals ks2 b c h = Some true → Equals ks3 a c h = Some r → r = true).
Proof.
  intros T ? ? h a b c. split_and!.
  - apply Equals_total.
  - intros ks r ->%Equals_spec. rewrite bool_decide_eq_true. split.
    + intros Hk x. by rewrite !Contains_keys, Hk.
    + intros Hc. apply set_eq. intros x.
      rewrite <- !Contains_true. by rewrite Hc.
  - intros ks1 ks2 r1 r2 ->%Equals_spec ->%Equals_spec.
    apply bool_decide_ext. split; by intros ->.
  - intros ks1 ks2 ks3 r H1%Equals_spec H2%Equals_spec ->%Equals_spec.
    symmetry in H1, H2. apply bool_decide_eq_true in H1, H2.
    apply bool_decide_eq_true. congruence.
Qed.

Lemma X5_witness :
  let a := (two_sets [1; 2] [2; 1]).1.1 in
  let b := (two_sets [1; 2] [2; 1]).1.2 in
  let h := (two_sets [1; 2] [2; 1]).2 in
  Equals [2; 1] a b h = Some true ∧ ∀ x, Contains a x h = Contains b x h.
Proof.
  intros a b h.
  assert (Equals [2; 1] a b h = Some true) as He by (vm_compute; reflexivity).
  split; [done|].
  by apply (proj1 (proj2 (X5_Equals_same_elements Z _ h a b a))
              [2; 1] true He).
Defined.

(** X6: [A.IsSubset(B)] returns, and returns [true] exactly when every
    element of [A] is an element of [B]; inclusion in [B] and of [B] in [C]
    gives inclusion in [C]. *)
Theorem X6_IsSubset_inclusion :
  ∀ (T : Type) `(Countable T) (h : gmap loc (gmap T ())) (a b c : loc),
    (∃ ks r, IsSubset ks a b h = Some r) ∧
    (∀ ks r, IsSubset ks a b h = Some r →
       r = true ↔ ∀ x, Contains a x h = true → Contains b x h = true) ∧
    (∀ ks1 ks2 ks3 r, IsSubset ks1 a b h = Some true →
       IsSubset ks2 b c h = Some true → IsSubset ks3 a c h = Some r →
       r = true).
Proof.
  intros T ? ? h a b c. split_and!.
  - apply IsSubset_total.
  - intros ks r ->%IsSubset_spec. rewrite bool_decide_eq_true. split.
    + intros Hsub x. rewrite !Contains_true. apply Hsub.
    + intros Hc x. rewrite <- !Contains_true. apply Hc.
  - intros ks1 ks2 ks3 r H1%IsSubset_spec H2%IsSubset_spec ->%IsSubset_spec.
    symmetry in H1, H2. apply bool_decide_eq_true in H1, H2.
    apply bool_decide_eq_true. set_solver.
Qed.

Lemma X6_witness :
  let a := (two_sets [1; 2] [1; 2; 3]).1.1 in
  let b := (two_sets [1; 2] [1; 2; 3]).1.2 in
  let h := (two_sets [1; 2] [1; 2; 3]).2 in
  IsSubset [2; 1] a b h = Some true ∧
  ∀ x, Contains a x h = true → Contains b x h = true.
Proof.
  intros a b h.
  assert (IsSubset [2; 1] a b h = Some true) as Hs
    by (vm_compute; reflexivity).
  split; [done|].
  by apply (proj1 (proj2 (X6_IsSubset_inclusion Z _ h a b a))
              [2; 1] true Hs).
Defined.

(** X7: [A.IsSuperset(B)] returns what [A.Equals(B)] returns.  So a [true]
    answer is never wrong ([A] then contains every element of [B]), and the
    answer is [false] whenever [A] has an element that [B] lacks. *)
Theorem X7_IsSuperset_answers_as_Equals :
  ∀ (T : Type) `(Countable T) (h : gmap loc (gmap T ())) (a b : loc),
    (∃ ks r, IsSuperset ks a b h = Some r) ∧
    (∀ ks1 ks2 r1 r2, IsSuperset ks1 a b h = Some r1 →
       Equals ks2 a b h = Some r2 → r1 = r2) ∧
    (∀ ks x, IsSuperset ks a b h = Some true →
       Contains b x h = true → Contains a x h = true) ∧
    (∀ ks r x, IsSuperset ks a b h = Some r →
       Contains a x h = true → Contains b x h = false → r = false).
Proof.
  intros T ? ? h a b. split_and!.
  - apply IsSuperset_total.
  - by intros ks1 ks2 r1 r2 ->%IsSuperset_spec ->%Equals_spec.
  - intros ks x Hr%IsSuperset_spec. symmetry in Hr.
    apply bool_decide_eq_true in Hr. rewrite !Contains_true. by rewrite Hr.
  - intros ks r x ->%IsSuperset_spec Ha%Contains_true Hb%Contains_false.
    apply bool_decide_eq_false. intros Heq. rewrite Heq in Ha. done.
Qed.

Lemma X7_witness :
  let a := (two_sets [1; 2; 3] [1; 2]).1.1 in
  let b := (two_sets [1; 2; 3] [1; 2]).1.2 in
  let h := (two_sets [1; 2; 3] [1; 2]).2 in
  (IsSuperset [2; 3] a b h = Some false ∧ Equals [] a b h = Some false) ∧
  false = false.
Proof.
  intros a b h.
  assert (IsSuperset [2; 3] a b h = Some false) as H1
    by (vm_compute; reflexivity).
  assert (Equals [] a b h = Some false) as H2 by (vm_compute; reflexivity).
  split; [done|].
  apply (proj1 (proj2 (X7_IsSuperset_answers_as_Equals Z _ h a b))
           [2; 3] [] false false H1 H2).
Defined.

(** X8: a set combined with itself by an allocating operation:
    [S.Union(S)] and [S.Intersection(S)] are equal to [S], and
    [S.Difference(S)] and [S.SymmetricDifference(S)] are empty.  Every call
    returns. *)
Theorem X8_allocating_self :
  ∀ (T : Type) `(Countable T) (h : gmap loc (gmap T ())) (s : loc),
    live h s →
    ((∃ ks1 ks2 u h', Union ks1 s s h = Some (u, h') ∧
        Equals ks2 u s h' = Some true) ∧
     (∃ ks1 ks2 u h', Intersection ks1 s s h = Some (u, h') ∧
        Equals ks2 u s h' = Some true) ∧
     (∃ ks r, Difference ks s s h = Some r) ∧
     (∃ ks r, SymmetricDifference ks s s h = Some r)) ∧
    (∀ ks1 ks2 u h' r, Union ks1 s s h = Some (u, h') →
       Equals ks2 u s h' = Some r → r = true) ∧
    (∀ ks1 ks2 u h' r, Intersection ks1 s s h = Some (u, h') →
       Equals ks2 u s h' = Some r → r = true) ∧
    (∀ ks u h', Difference ks s s h = Some (u, h') → Len u h' = 0%nat) ∧
    (∀ ks u h', SymmetricDifference ks s s h = Some (u, h') →
       Len u h' = 0%nat).
Proof.
  intros T ? ? h s Hs.
  assert (∀ ks1 ks2 u h' r, Union ks1 s s h = Some (u, h') →
            Equals ks2 u s h' = Some r → r = true) as HU.
  { intros ks1 ks2 u h' r Hal%Union_spec; [|done].
    destruct (allocates_facts _ _ _ _ Hal) as (_ & Hk & _ & Hold).
    apply Equals_same_keys. rewrite Hk, Hold by done. set_solver. }
  assert (∀ ks1 ks2 u h' r, Intersection ks1 s s h = Some (u, h') →
            Equals ks2 u s h' = Some r → r = true) as HI.
  { intros ks1 ks2 u h' r Hal%Intersection_spec; [|done..].
    destruct (allocates_facts _ _ _ _ Hal) as (_ & Hk & _ & Hold).
    apply Equals_same_keys. rewrite Hk, Hold by done. set_solver. }
  split_and!.
  - destruct (Union_total h s s Hs) as (ks1 & [u h'] & H1).
    destruct (Equals_total h' u s) as (ks2 & r & H2).
    exists ks1, ks2, u, h'. by rewrite <- (HU _ _ _ _ _ H1 H2).
  - destruct (Intersection_total h s s Hs Hs) as (ks1 & [u h'] & H1).
    destruct (Equals_total h' u s) as (ks2 & r & H2).
    exists ks1, ks2, u, h'. by rewrite <- (HI _ _ _ _ _ H1 H2).
  - by apply Difference_total.
  - by apply SymmetricDifference_total.
  - done.
  - done.
  - intros ks u h' Hal%Difference_spec; [|done..].
    destruct (allocates_facts _ _ _ _ Hal) as (_ & Hk & _).
    apply Len_zero_keys. rewrite Hk. set_solver.
  - intros ks u h' Hal%SymmetricDifference_spec; [|done].
    destruct (allocates_facts _ _ _ _ Hal) as (_ & Hk & _).
    apply Len_zero_keys. rewrite Hk. set_solver.
Qed.

Lemma X8_witness :
  let s := (one_set [1; 2]).1 in
  let h := (one_set [1; 2]).2 in
  live h s ∧
  ∃ u h', SymmetricDifference [1; 2] s s h = Some (u, h') ∧ Len u h' = 0%nat.
Proof.
  intros s h. assert (live h s) as Hs by (vm_compute; eauto).
  split; [done|].
  destruct (SymmetricDifference [1; 2] s s h) as [[u h']|] eqn:Hr;
    [|by vm_compute in Hr].
  exists u, h'. split; [done|].
  apply (proj2 (proj2 (proj2 (proj2 (X8_allocating_self Z _ h s Hs))))
           [1; 2] u h' Hr).
Defined.

(** X9: the empty set as argument.  [Merge], [Subtract] and [Xor] with an
    empty argument leave the whole store as it was; [Retain] with an empty
    argument empties the receiver; [A.Union(∅)] is equal to [A] and
    [A.Intersection(∅)] is empty.  Every call returns. *)
Theorem X9_empty_argument :
  ∀ (T : Type) `(Countable T) (h : gmap loc (gmap T ())) (a b : loc),
    live h a → live h b → Len b h = 0%nat →
    ((∃ ks, Merge ks a b h = Some h) ∧
     (∃ ks, Subtract ks a b h = Some h) ∧
     (∃ ks, Xor ks a b h = Some h) ∧
     (∃ ks h', Retain ks a b h = Some h') ∧
     (∃ ks1 ks2 u h', Union ks1 a b h = Some (u, h') ∧
        Equals ks2 u a h' = Some true) ∧
     (∃ ks r, Intersection ks a b h = Some r)) ∧
    (∀ ks h', Merge ks a b h = Some h' → h' = h) ∧
    (∀ ks h', Subtract ks a b h = Some h' → h' = h) ∧
    (∀ ks h', Xor ks a b h = Some h' → h' = h) ∧
    (∀ ks h', Retain ks a b h = Some h' → Len a h' = 0%nat) ∧
    (∀ ks1 ks2 u h' r, Union ks1 a b h = Some (u, h') →
       Equals ks2 u a h' = Some r → r = true) ∧
    (∀ ks u h', Intersection ks a b h = Some (u, h') → Len u h' = 0%nat).
Proof.
  intros T ? ? h a b Ha Hb Hz%Len_zero_keys.
  assert (∀ ks h', Merge ks a b h = Some h' → h' = h) as HM.
  { intros ks h' Hc%Merge_spec; [|done].
    apply (changes_only_same h a); [done|].
    revert Hc. apply changes_only_ext. set_solver. }
  assert (∀ ks h', Subtract ks a b h = Some h' → h' = h) as HS.
  { intros ks h' Hc%Subtract_spec; [|done].
    apply (changes_only_same h a); [done|].
    revert Hc. apply changes_only_ext. set_solver. }
  assert (∀ ks h', Xor ks a b h = Some h' → h' = h) as HX.
  { intros ks h' Hc%Xor_spec; [|done].
    apply (changes_only_same h a); [done|].
    revert Hc. apply changes_only_ext. set_solver. }
  assert (∀ ks1 ks2 u h' r, Union ks1 a b h = Some (u, h') →
            Equals ks2 u a h' = Some r → r = true) as HU.
  { intros ks1 ks2 u h' r Hal%Union_spec; [|done].
    destruct (allocates_facts _ _ _ _ Hal) as (_ & Hk & _ & Hold).
    apply Equals_same_keys. rewrite Hk, Hold by done. set_solver. }
  split_and!.
  - destruct (Merge_total h a b Ha) as (ks & h' & Hr). exists ks.
    by rewrite Hr, (HM _ _ Hr).
  - destruct (Subtract_total h a b Ha) as (ks & h' & Hr). exists ks.
    by rewrite Hr, (HS _ _ Hr).
  - destruct (Xor_total h a b Ha) as (ks & h' & Hr). exists ks.
    by rewrite Hr, (HX _ _ Hr).
  - by apply Retain_total.
  - destruct (Union_total h a b Hb) as (ks1 & [u h'] & H1).
    destruct (Equals_total h' u a) as (ks2 & r & H2).
    exists ks1, ks2, u, h'. by rewrite <- (HU _ _ _ _ _ H1 H2).
  - by apply Intersection_total.
  - done.
  - done.
  - done.
  - intros ks h' Hc%Retain_spec; [|done].
    apply Len_zero_keys. destruct Hc as (_ & _ & ->). set_solver.
  - done.
  - intros ks u h' Hal%Intersection_spec; [|done..].
    destruct (allocates_facts _ _ _ _ Hal) as (_ & Hk & _).
    apply Len_zero_keys. rewrite Hk. set_solver.
Qed.

Lemma X9_witness :
  let a := (two_sets [1; 2] []).1.1 in
  let b := (two_sets [1; 2] []).1.2 in
  let h := (two_sets [1; 2] []).2 in
  (live h a ∧ live h b ∧ Len b h = 0%nat) ∧
  Xor [] a b h = Some h ∧
  ∃ h', Retain [1; 2] a b h = Some h' ∧ Len a h' = 0%nat.
Proof.
  intros a b h.
  assert (live h a) as Ha by (vm_compute; eauto).
  assert (live h b) as Hb by (vm_compute; eauto).
  assert (Len b h = 0%nat) as Hz by (vm_compute; reflexivity).
  split; [done|]. split; [vm_compute; reflexivity|].
  destruct (Retain [1; 2] a b h) as [h'|] eqn:Hr; [|by vm_compute in Hr].
  exists h'. split; [done|].
  apply (proj1 (proj2 (proj2 (proj2 (proj2
           (X9_empty_argument Z _ h a b Ha Hb Hz))))) [1; 2] h' Hr).
Defined.

(** X10: counting.  [Len] of [A.Union(B)] plus [Len] of [A.Intersection(B)]
    is [Len] of [A] plus [Len] of [B], and [Len] of [A.Difference(B)] plus
    [Len] of [A.Intersection(B)] is [Len] of [A].  Every call returns. *)
Theorem X10_Len_of_results :
  ∀ (T : Type) `(Countable T) (h : gmap loc (gmap T ())) (a b : loc),
    live h a → live h b →
    (∃ ks1 ks2 ks3 u h1 i h2 d h3, Union ks1 a b h = Some (u, h1) ∧
       Intersection ks2 a b h1 = Some (i, h2) ∧
       Difference ks3 a b h2 = Some (d, h3)) ∧
    (∀ ks1 ks2 ks3 u h1 i h2 d h3, Union ks1 a b h = Some (u, h1) →
       Intersection ks2 a b h1 = Some (i, h2) →
       Difference ks3 a b h2 = Some (d, h3) →
       (Len u h3 + Len i h3 = Len a h + Len b h)%nat ∧
       (Len d h3 + Len i h3 = Len a h)%nat).
Proof.
  intros T ? ? h a b Ha Hb. split.
  - destruct (Union_total h a b Hb) as (ks1 & [u h1] & H1).
    destruct (allocates_facts _ _ _ _ (Union_spec _ _ _ _ _ _ Hb H1))
      as (_ & _ & L1 & _).
    destruct (Intersection_total h1 a b (L1 _ Ha) (L1 _ Hb))
      as (ks2 & [i h2] & H2).
    destruct (allocates_facts _ _ _ _
                (Intersection_spec _ _ _ _ _ _ (L1 _ Ha) (L1 _ Hb) H2))
      as (_ & _ & L2 & _).
    destruct (Difference_total h2 a b (L2 _ (L1 _ Ha)) (L2 _ (L1 _ Hb)))
      as (ks3 & [d h3] & H3).
    by exists ks1, ks2, ks3, u, h1, i, h2, d, h3.
  - intros ks1 ks2 ks3 u h1 i h2 d h3 H1%Union_spec H2 H3; [|done].
    destruct (allocates_facts _ _ _ _ H1) as (Lu1 & Ku1 & L1 & K1).
    apply Intersection_spec in H2; [|by apply L1..].
    destruct (allocates_facts _ _ _ _ H2) as (Li2 & Ki2 & L2 & K2).
    apply Difference_spec in H3; [|by apply L2, L1..].
    destruct (allocates_facts _ _ _ _ H3) as (Ld3 & Kd3 & L3 & K3).
    rewrite !Len_keys, Kd3.
    rewrite (K3 u) by by apply L2. rewrite (K3 i) by done.
    rewrite (K2 u) by done. rewrite Ki2, Ku1.
    rewrite !(K2 _) by by apply L1. rewrite !(K1 _) by done.
    split; [apply size_union_intersection|apply size_difference_intersection].
Qed.

Lemma X10_witness :
  let a := (two_sets [1; 2; 3] [3; 4; 5]).1.1 in
  let b := (two_sets [1; 2; 3] [3; 4; 5]).1.2 in
  let h := (two_sets [1; 2; 3] [3; 4; 5]).2 in
  (live h a ∧ live h b) ∧
  (r1 ← Union [3; 4; 5] a b h;
   r2 ← Intersection [4; 3; 5] a b r1.2;
   r3 ← Difference [1; 3; 2] a b r2.2;
   Some (Len r1.1 r3.2, Len r2.1 r3.2, Len r3.1 r3.2))
    = Some (5%nat, 1%nat, 2%nat) ∧
  (∀ ks1 ks2 ks3 u h1 i h2 d h3, Union ks1 a b h = Some (u, h1) →
     Intersection ks2 a b h1 = Some (i, h2) →
     Difference ks3 a b h2 = Some (d, h3) →
     (Len u h3 + Len i h3 = Len a h + Len b h)%nat ∧
     (Len d h3 + Len i h3 = Len a h)%nat).
Proof.
  intros a b h.
  assert (live h a) as Ha by (vm_compute; eauto).
  assert (live h b) as Hb by (vm_compute; eauto).
  split; [done|]. split; [vm_compute; reflexivity|].
  apply (proj2 (X10_Len_of_results Z _ h a b Ha Hb)).
Defined.

(** X11: [Xor] with the same argument twice gives back the store as it was,
    when the argument is not the receiver itself.  Both calls return. *)
Theorem X11_Xor_twice :
  ∀ (T : Type) `(Countable T) (h : gmap loc (gmap T ())) (a b : loc),
    live h a → b ≠ a →
    (∃ ks1 ks2 h1, Xor ks1 a b h = Some h1 ∧ Xor ks2 a b h1 = Some h) ∧
    (∀ ks1 ks2 h1 h2, Xor ks1 a b h = Some h1 → Xor ks2 a b h1 = Some h2 →
       h2 = h).
Proof.
  intros T ? ? h a b Ha Hne.
  assert (∀ ks1 ks2 h1 h2, Xor ks1 a b h = Some h1 →
            Xor ks2 a b h1 = Some h2 → h2 = h) as HX.
  { intros ks1 ks2 h1 h2 H1%Xor_spec H2; [|done].
    destruct (changes_only_facts _ _ _ _ H1) as (L1 & K1 & _ & Kb).
    apply Xor_spec in H2; [|done]. rewrite K1, (Kb b) in H2 by done.
    apply (changes_only_same h a); [done|].
    apply (changes_only_trans _ _ _ _ _ _ H1).
    revert H2. apply changes_only_ext.
    apply set_eq. intros x.
    destruct (decide (x ∈ keys h b)), (decide (x ∈ keys h a)); set_solver. }
  split; [|done].
  destruct (Xor_total h a b Ha) as (ks1 & h1 & H1).
  destruct (changes_only_facts _ _ _ _ (Xor_spec _ _ _ _ _ Ha H1))
    as (L1 & _).
  destruct (Xor_total h1 a b L1) as (ks2 & h2 & H2).
  exists ks1, ks2, h1. split; [done|]. by rewrite H2, (HX _ _ _ _ H1 H2).
Qed.

Lemma X11_witness :
  let a := (two_sets [1; 2; 3] [3; 4]).1.1 in
  let b := (two_sets [1; 2; 3] [3; 4]).1.2 in
  let h := (two_sets [1; 2; 3] [3; 4]).2 in
  (live h a ∧ b ≠ a) ∧
  (h1 ← Xor [4; 3] a b h; Xor [3; 4] a b h1) = Some h ∧
  (∀ ks1 ks2 h1 h2, Xor ks1 a b h = Some h1 → Xor ks2 a b h1 = Some h2 →
     h2 = h).
Proof.
  intros a b h.
  assert (live h a) as Ha by (vm_compute; eauto).
  assert (b ≠ a) as Hne by (vm_compute; discriminate).
  split; [done|]. split; [vm_compute; reflexivity|].
  apply (proj2 (X11_Xor_twice Z _ h a b Ha Hne)).
Defined.

(** X12: after [A.Merge(B)], [B.IsSubset(A)] is true, and merging [B] again
    leaves the whole store as it is.  Every call returns. *)
Theorem X12_Merge_absorbs :
  ∀ (T : Type) `(Countable T) (h : gmap loc (gmap T ())) (a b : loc),
    live h a →
    (∃ ks1 ks2 ks3 h1, Merge ks1 a b h = Some h1 ∧
       IsSubset ks2 b a h1 = Some true ∧ Merge ks3 a b h1 = Some h1) ∧
    (∀ ks1 ks2 h1 r, Merge ks1 a b h = Some h1 →
       IsSubset ks2 b a h1 = Some r → r = true) ∧
    (∀ ks1 ks2 h1 h2, Merge ks1 a b h = Some h1 →
       Merge ks2 a b h1 = Some h2 → h2 = h1).
Proof.
  intros T ? ? h a b Ha.
  assert (∀ ks1 h1, Merge ks1 a b h = Some h1 →
            live h1 a ∧ keys h1 b ⊆ keys h1 a) as Hpost.
  { intros ks1 h1 H1%Merge_spec; [|done].
    destruct (changes_only_facts _ _ _ _ H1) as (L1 & K1 & _).
    split; [done|]. rewrite (changes_only_other _ _ b _ _ H1), K1.
    case_decide; set_solver. }
  assert (∀ ks1 ks2 h1 r, Merge ks1 a b h = Some h1 →
            IsSubset ks2 b a h1 = Some r → r = true) as HS.
  { intros ks1 ks2 h1 r [_ Hsub]%Hpost ->%IsSubset_spec.
    by apply bool_decide_eq_true. }
  assert (∀ ks1 ks2 h1 h2, Merge ks1 a b h = Some h1 →
            Merge ks2 a b h1 = Some h2 → h2 = h1) as HM.
  { intros ks1 ks2 h1 h2 [L1 Hsub]%Hpost H2%Merge_spec; [|done].
    apply (changes_only_same h1 a); [done|].
    revert H2. apply changes_only_ext. set_solver. }
  split; [|done].
  destruct (Merge_total h a b Ha) as (ks1 & h1 & H1).
  destruct (Hpost _ _ H1) as [L1 _].
  destruct (IsSubset_total h1 b a) as (ks2 & r & H2).
  destruct (Merge_total h1 a b L1) as (ks3 & h2 & H3).
  exists ks1, ks2, ks3, h1. split_and!; [done| |].
  - by rewrite H2, (HS _ _ _ _ H1 H2).
  - by rewrite H3, (HM _ _ _ _ H1 H3).
Qed.

Lemma X12_witness :
  let a := (two_sets [1; 2] [2; 3]).1.1 in
  let b := (two_sets [1; 2] [2; 3]).1.2 in
  let h := (two_sets [1; 2] [2; 3]).2 in
  live h a ∧
  (h1 ← Merge [3; 2] a b h; IsSubset [2; 3] b a h1) = Some true ∧
  (∀ ks1 ks2 h1 r, Merge ks1 a b h = Some h1 →
     IsSubset ks2 b a h1 = Some r → r = true).
Proof.
  intros a b h. assert (live h a) as Ha by (vm_compute; eauto).
  split; [done|]. split; [vm_compute; reflexivity|].
  apply (proj1 (proj2 (X12_Merge_absorbs Z _ h a b Ha))).
Defined.

(** X13: after [A.Retain(B)], [A.IsSubset(B)] is true; after
    [A.Subtract(B)], [A.Intersection(B)] is empty; and doing either a second
    time leaves the whole store as it is.  Every call returns. *)
Theorem X13_Retain_Subtract_settle :
  ∀ (T : Type) `(Countable T) (h : gmap loc (gmap T ())) (a b : loc),
    live h a → live h b →
    ((∃ ks1 ks2 ks3 h1, Retain ks1 a b h = Some h1 ∧
        IsSubset ks2 a b h1 = Some true ∧ Retain ks3 a b h1 = Some h1) ∧
     (∃ ks1 ks2 ks3 h1 i h2, Subtract ks1 a b h = Some h1 ∧
        Intersection ks2 a b h1 = Some (i, h2) ∧
        Subtract ks3 a b h1 = Some h1)) ∧
    (∀ ks1 ks2 h1 r, Retain ks1 a b h = Some h1 →
       IsSubset ks2 a b h1 = Some r → r = true) ∧
    (∀ ks1 ks2 h1 h2, Retain ks1 a b h = Some h1 →
       Retain ks2 a b h1 = Some h2 → h2 = h1) ∧
    (∀ ks1 ks2 h1 i h2, Subtract ks1 a b h = Some h1 →
       Intersection ks2 a b h1 = Some (i, h2) → Len i h2 = 0%nat) ∧
    (∀ ks1 ks2 h1 h2, Subtract ks1 a b h = Some h1 →
       Subtract ks2 a b h1 = Some h2 → h2 = h1).
Proof.
  intros T ? ? h a b Ha Hb.
  assert (∀ ks1 h1, Retain ks1 a b h = Some h1 →
            live h1 a ∧ live h1 b ∧ keys h1 a ⊆ keys h1 b) as HpostR.
  { intros ks1 h1 H1%Retain_spec; [|done].
    destruct (changes_only_facts _ _ _ _ H1) as (L1 & K1 & Lo & _).
    split; [done|]. split; [by apply Lo|].
    rewrite (changes_only_other _ _ b _ _ H1), K1.
    case_decide; set_solver. }
  assert (∀ ks1 h1, Subtract ks1 a b h = Some h1 →
            live h1 a ∧ live h1 b ∧ keys h1 a ∩ keys h1 b = ∅) as HpostS.
  { intros ks1 h1 H1%Subtract_spec; [|done].
    destruct (changes_only_facts _ _ _ _ H1) as (L1 & K1 & Lo & _).
    split; [done|]. split; [by apply Lo|].
    rewrite (changes_only_other _ _ b _ _ H1), K1.
    case_decide; set_solver. }
  assert (∀ ks1 ks2 h1 r, Retain ks1 a b h = Some h1 →
            IsSubset ks2 a b h1 = Some r → r = true) as HR1.
  { intros ks1 ks2 h1 r (_ & _ & Hsub)%HpostR ->%IsSubset_spec.
    by apply bool_decide_eq_true. }
  assert (∀ ks1 ks2 h1 h2, Retain ks1 a b h = Some h1 →
            Retain ks2 a b h1 = Some h2 → h2 = h1) as HR2.
  { intros ks1 ks2 h1 h2 (L1 & _ & Hsub)%HpostR H2%Retain_spec; [|done].
    apply (changes_only_same h1 a); [done|].
    revert H2. apply changes_only_ext. set_solver. }
  assert (∀ ks1 ks2 h1 i h2, Subtract ks1 a b h = Some h1 →
            Intersection ks2 a b h1 = Some (i, h2) → Len i h2 = 0%nat)
    as HS1.
  { intros ks1 ks2 h1 i h2 (L1 & Lb & Hdis)%HpostS H2%Intersection_spec;
      [|done..].
    destruct (allocates_facts _ _ _ _ H2) as (_ & Ki & _).
    apply Len_zero_keys. by rewrite Ki. }
  assert (∀ ks1 ks2 h1 h2, Subtract ks1 a b h = Some h1 →
            Subtract ks2 a b h1 = Some h2 → h2 = h1) as HS2.
  { intros ks1 ks2 h1 h2 (L1 & _ & Hdis)%HpostS H2%Subtract_spec; [|done].
    apply (changes_only_same h1 a); [done|].
    revert H2. apply changes_only_ext. set_solver. }
  split; [|done]. split.
  - destruct (Retain_total h a b Ha) as (ks1 & h1 & H1).
    destruct (HpostR _ _ H1) as (L1 & _).
    destruct (IsSubset_total h1 a b) as (ks2 & r & H2).
    destruct (Retain_total h1 a b L1) as (ks3 & h2 & H3).
    exists ks1, ks2, ks3, h1. split_and!; [done| |].
    + by rewrite H2, (HR1 _ _ _ _ H1 H2).
    + by rewrite H3, (HR2 _ _ _ _ H1 H3).
  - destruct (Subtract_total h a b Ha) as (ks1 & h1 & H1).
    destruct (HpostS _ _ H1) as (L1 & Lb & _).
    destruct (Intersection_total h1 a b L1 Lb) as (ks2 & [i h2] & H2).
    destruct (Subtract_total h1 a b L1) as (ks3 & h3 & H3).
    exists ks1, ks2, ks3, h1, i, h2. split_and!; [done..|].
    by rewrite H3, (HS2 _ _ _ _ H1 H3).
Qed.

Lemma X13_witness :
  let a := (two_sets [1; 2; 3] [2; 3; 4]).1.1 in
  let b := (two_sets [1; 2; 3] [2; 3; 4]).1.2 in
  let h := (two_sets [1; 2; 3] [2; 3; 4]).2 in
  (live h a ∧ live h b) ∧
  (h1 ← Retain [3; 1; 2] a b h; IsSubset [2; 3] a b h1) = Some true ∧
  (∀ ks1 ks2 h1 r, Retain ks1 a b h = Some h1 →
     IsSubset ks2 a b h1 = Some r → r = true).
Proof.
  intros a b h.
  assert (live h a) as Ha by (vm_compute; eauto).
  assert (live h b) as Hb by (vm_compute; eauto).
  split; [done|]. split; [vm_compute; reflexivity|].
  apply (proj1 (proj2 (X13_Retain_Subtract_settle Z _ h a b Ha Hb))).
Defined.

(** X14: [Union] and [Intersection] are associative up to [Equals]:
    [A.Union(B.Union(C))] equals [A.Union(B).Union(C)], and the same for
    [Intersection].  Every call returns. *)
Theorem X14_associative_up_to_Equals :
  ∀ (T : Type) `(Countable T) (h : gmap loc (gmap T ())) (a b c : loc),
    live h a → live h b → live h c →
    ((∃ ks1 ks2 ks3 ks4 ks5 u1 h1 u2 h2 u3 h3 u4 h4,
        Union ks1 b c h = Some (u1, h1) ∧ Union ks2 a u1 h1 = Some (u2, h2) ∧
        Union ks3 a b h2 = Some (u3, h3) ∧ Union ks4 u3 c h3 = Some (u4, h4) ∧
        Equals ks5 u2 u4 h4 = Some true) ∧
     (∃ ks1 ks2 ks3 ks4 ks5 u1 h1 u2 h2 u3 h3 u4 h4,
        Intersection ks1 b c h = Some (u1, h1) ∧
        Intersection ks2 a u1 h1 = Some (u2, h2) ∧
        Intersection ks3 a b h2 = Some (u3, h3) ∧
        Intersection ks4 u3 c h3 = Some (u4, h4) ∧
        Equals ks5 u2 u4 h4 = Some true)) ∧
    (∀ ks1 ks2 ks3 ks4 ks5 u1 h1 u2 h2 u3 h3 u4 h4 r,
       Union ks1 b c h = Some (u1, h1) → Union ks2 a u1 h1 = Some (u2, h2) →
       Union ks3 a b h2 = Some (u3, h3) → Union ks4 u3 c h3 = Some (u4, h4) →
       Equals ks5 u2 u4 h4 = Some r → r = true) ∧
    (∀ ks1 ks2 ks3 ks4 ks5 u1 h1 u2 h2 u3 h3 u4 h4 r,
       Intersection ks1 b c h = Some (u1, h1) →
       Intersection ks2 a u1 h1 = Some (u2, h2) →
       Intersection ks3 a b h2 = Some (u3, h3) →
       Intersection ks4 u3 c h3 = Some (u4, h4) →
       Equals ks5 u2 u4 h4 = Some r → r = true).
Proof.
  intros T ? ? h a b c Ha Hb Hc.
  assert (∀ ks1 ks2 ks3 ks4 ks5 u1 h1 u2 h2 u3 h3 u4 h4 r,
            Union ks1 b c h = Some (u1, h1) →
            Union ks2 a u1 h1 = Some (u2, h2) →
            Union ks3 a b h2 = Some (u3, h3) →
            Union ks4 u3 c h3 = Some (u4, h4) →
            Equals ks5 u2 u4 h4 = Some r → r = true) as HU.
  { intros ks1 ks2 ks3 ks4 ks5 u1 h1 u2 h2 u3 h3 u4 h4 r H1 H2 H3 H4.
    allocated H1. destruct (allocates_facts _ _ _ _ H1) as (N1 & Q1 & L1 & K1).
    allocated H2. destruct (allocates_facts _ _ _ _ H2) as (N2 & Q2 & L2 & K2).
    allocated H3. destruct (allocates_facts _ _ _ _ H3) as (N3 & Q3 & L3 & K3).
    allocated H4. destruct (allocates_facts _ _ _ _ H4) as (N4 & Q4 & L4 & K4).
    apply Equals_same_keys.
    rewrite Q4. repeat (rewrite (K4 _) by eauto 10).
    rewrite Q3. repeat (rewrite (K3 _) by eauto 10).
    rewrite Q2. repeat (rewrite (K2 _) by eauto 10).
    rewrite Q1. repeat (rewrite (K1 _) by eauto 10).
    set_solver. }
  assert (∀ ks1 ks2 ks3 ks4 ks5 u1 h1 u2 h2 u3 h3 u4 h4 r,
            Intersection ks1 b c h = Some (u1, h1) →
            Intersection ks2 a u1 h1 = Some (u2, h2) →
            Intersection ks3 a b h2 = Some (u3, h3) →
            Intersection ks4 u3 c h3 = Some (u4, h4) →
            Equals ks5 u2 u4 h4 = Some r → r = true) as HI.
  { intros ks1 ks2 ks3 ks4 ks5 u1 h1 u2 h2 u3 h3 u4 h4 r H1 H2 H3 H4.
    allocated H1. destruct (allocates_facts _ _ _ _ H1) as (N1 & Q1 & L1 & K1).
    allocated H2. destruct (allocates_facts _ _ _ _ H2) as (N2 & Q2 & L2 & K2).
    allocated H3. destruct (allocates_facts _ _ _ _ H3) as (N3 & Q3 & L3 & K3).
    allocated H4. destruct (allocates_facts _ _ _ _ H4) as (N4 & Q4 & L4 & K4).
    apply Equals_same_keys.
    rewrite Q4. repeat (rewrite (K4 _) by eauto 10).
    rewrite Q3. repeat (rewrite (K3 _) by eauto 10).
    rewrite Q2. repeat (rewrite (K2 _) by eauto 10).
    rewrite Q1. repeat (rewrite (K1 _) by eauto 10).
    set_solver. }
  split; [|done]. split.
  - destruct (Union_total h b c Hc) as (ks1 & [u1 h1] & H1).
    pose proof H1 as A1. allocated A1.
    destruct (allocates_facts _ _ _ _ A1) as (N1 & _ & L1 & _).
    destruct (Union_total h1 a u1 N1) as (ks2 & [u2 h2] & H2).
    pose proof H2 as A2. allocated A2.
    destruct (allocates_facts _ _ _ _ A2) as (N2 & _ & L2 & _).
    destruct (Union_total h2 a b ltac:(eauto 10)) as (ks3 & [u3 h3] & H3).
    pose proof H3 as A3. allocated A3.
    destruct (allocates_facts _ _ _ _ A3) as (N3 & _ & L3 & _).
    destruct (Union_total h3 u3 c ltac:(eauto 10)) as (ks4 & [u4 h4] & H4).
    destruct (Equals_total h4 u2 u4) as (ks5 & r & H5).
    exists ks1, ks2, ks3, ks4, ks5, u1, h1, u2, h2, u3, h3, u4, h4.
    split_and!; [done..|].
    by rewrite H5, (HU _ _ _ _ _ _ _ _ _ _ _ _ _ _ H1 H2 H3 H4 H5).
  - destruct (Intersection_total h b c Hb Hc) as (ks1 & [u1 h1] & H1).
    pose proof H1 as A1. allocated A1.
    destruct (allocates_facts _ _ _ _ A1) as (N1 & _ & L1 & _).
    destruct (Intersection_total h1 a u1 ltac:(eauto 10) N1)
      as (ks2 & [u2 h2] & H2).
    pose proof H2 as A2. allocated A2.
    destruct (allocates_facts _ _ _ _ A2) as (N2 & _ & L2 & _).
    destruct (Intersection_total h2 a b ltac:(eauto 10) ltac:(eauto 10))
      as (ks3 & [u3 h3] & H3).
    pose proof H3 as A3. allocated A3.
    destruct (allocates_facts _ _ _ _ A3) as (N3 & _ & L3 & _).
    destruct (Intersection_total h3 u3 c N3 ltac:(eauto 10))
      as (ks4 & [u4 h4] & H4).
    destruct (Equals_total h4 u2 u4) as (ks5 & r & H5).
    exists ks1, ks2, ks3, ks4, ks5, u1, h1, u2, h2, u3, h3, u4, h4.
    split_and!; [done..|].
    by rewrite H5, (HI _ _ _ _ _ _ _ _ _ _ _ _ _ _ H1 H2 H3 H4 H5).
Qed.

Lemma X14_witness :
  let a := (two_sets [1; 2] [2; 3]).1.1 in
  let b := (two_sets [1; 2] [2; 3]).1.2 in
  let c := (build [3; 4] (two_sets [1; 2] [2; 3]).2).1 in
  let h := (build [3; 4] (two_sets [1; 2] [2; 3]).2).2 in
  (live h a ∧ live h b ∧ live h c) ∧
  (r1 ← Union [4; 3] b c h;
   r2 ← Union [2; 4; 3] a r1.1 r1.2;
   r3 ← Union [3; 2] a b r2.2;
   r4 ← Union [3; 4] r3.1 c r3.2;
   Equals [1; 2; 3; 4] r2.1 r4.1 r4.2) = Some true ∧
  (∀ ks1 ks2 ks3 ks4 ks5 u1 h1 u2 h2 u3 h3 u4 h4 r,
     Union ks1 b c h = Some (u1, h1) → Union ks2 a u1 h1 = Some (u2, h2) →
     Union ks3 a b h2 = Some (u3, h3) → Union ks4 u3 c h3 = Some (u4, h4) →
     Equals ks5 u2 u4 h4 = Some r → r = true).
Proof.
  intros a b c h.
  assert (live h a) as Ha by (vm_compute; eauto).
  assert (live h b) as Hb by (vm_compute; eauto).
  assert (live h c) as Hc by (vm_compute; eauto).
  split; [done|]. split; [vm_compute; reflexivity|].
  apply (proj1 (proj2 (X14_associative_up_to_Equals Z _ h a b c Ha Hb Hc))).
Defined.

(** X15: [Difference] and [Intersection] split the receiver:
    [A.Difference(B).Union(A.Intersection(B))] equals [A].  Every call
    returns. *)
Theorem X15_Difference_Intersection_partition :
  ∀ (T : Type) `(Countable T) (h : gmap loc (gmap T ())) (a b : loc),
    live h a → live h b →
    (∃ ks1 ks2 ks3 ks4 d h1 i h2 u h3,
       Difference ks1 a b h = Some (d, h1) ∧
       Intersection ks2 a b h1 = Some (i, h2) ∧
       Union ks3 d i h2 = Some (u, h3) ∧ Equals ks4 u a h3 = Some true) ∧
    (∀ ks1 ks2 ks3 ks4 d h1 i h2 u h3 r,
       Difference ks1 a b h = Some (d, h1) →
       Intersection ks2 a b h1 = Some (i, h2) →
       Union ks3 d i h2 = Some (u, h3) → Equals ks4 u a h3 = Some r →
       r = true).
Proof.
  intros T ? ? h a b Ha Hb.
  assert (∀ ks1 ks2 ks3 ks4 d h1 i h2 u h3 r,
            Difference ks1 a b h = Some (d, h1) →
            Intersection ks2 a b h1 = Some (i, h2) →
            Union ks3 d i h2 = Some (u, h3) → Equals ks4 u a h3 = Some r →
            r = true) as HP.
  { intros ks1 ks2 ks3 ks4 d h1 i h2 u h3 r H1 H2 H3.
    allocated H1. destruct (allocates_facts _ _ _ _ H1) as (N1 & Q1 & L1 & K1).
    allocated H2. destruct (allocates_facts _ _ _ _ H2) as (N2 & Q2 & L2 & K2).
    allocated H3. destruct (allocates_facts _ _ _ _ H3) as (N3 & Q3 & L3 & K3).
    apply Equals_same_keys.
    rewrite Q3. repeat (rewrite (K3 _) by eauto 10).
    rewrite Q2. repeat (rewrite (K2 _) by eauto 10).
    rewrite Q1. repeat (rewrite (K1 _) by eauto 10).
    apply set_eq. intros x. destruct (decide (x ∈ keys h b)); set_solver. }
  split; [|done].
  destruct (Difference_total h a b Ha Hb) as (ks1 & [d h1] & H1).
  pose proof H1 as A1. allocated A1.
  destruct (allocates_facts _ _ _ _ A1) as (N1 & _ & L1 & _).
  destruct (Intersection_total h1 a b ltac:(eauto 10) ltac:(eauto 10))
    as (ks2 & [i h2] & H2).
  pose proof H2 as A2. allocated A2.
  destruct (allocates_facts _ _ _ _ A2) as (N2 & _ & L2 & _).
  destruct (Union_total h2 d i N2) as (ks3 & [u h3] & H3).
  destruct (Equals_total h3 u a) as (ks4 & r & H4).
  exists ks1, ks2, ks3, ks4, d, h1, i, h2, u, h3. split_and!; [done..|].
  by rewrite H4, (HP _ _ _ _ _ _ _ _ _ _ _ H1 H2 H3 H4).
Qed.

Lemma X15_witness :
  let a := (two_sets [1; 2; 3] [3; 4; 5]).1.1 in
  let b := (two_sets [1; 2; 3] [3; 4; 5]).1.2 in
  let h := (two_sets [1; 2; 3] [3; 4; 5]).2 in
  (live h a ∧ live h b) ∧
  (r1 ← Difference [2; 3; 1] a b h;
   r2 ← Intersection [5; 4; 3] a b r1.2;
   r3 ← Union [3] r1.1 r2.1 r2.2;
   Equals [3; 2; 1] r3.1 a r3.2) = Some true ∧
  (∀ ks1 ks2 ks3 ks4 d h1 i h2 u h3 r,
     Difference ks1 a b h = Some (d, h1) →
     Intersection ks2 a b h1 = Some (i, h2) →
     Union ks3 d i h2 = Some (u, h3) → Equals ks4 u a h3 = Some r →
     r = true).
Proof.
  intros a b h.
  assert (live h a) as Ha by (vm_compute; eauto).
  assert (live h b) as Hb by (vm_compute; eauto).
  split; [done|]. split; [vm_compute; reflexivity|].
  apply (proj2 (X15_Difference_Intersection_partition Z _ h a b Ha Hb)).
Defined.

(** X16: [A.SymmetricDifference(B)] equals
    [A.Difference(B).Union(B.Difference(A))].  Every call returns. *)
Theorem X16_SymmetricDifference_as_Differences :
  ∀ (T : Type) `(Countable T) (h : gmap loc (gmap T ())) (a b : loc),
    live h a → live h b →
    (∃ ks1 ks2 ks3 ks4 ks5 s h1 d1 h2 d2 h3 u h4,
       SymmetricDifference ks1 a b h = Some (s, h1) ∧
       Difference ks2 a b h1 = Some (d1, h2) ∧
       Difference ks3 b a h2 = Some (d2, h3) ∧
       Union ks4 d1 d2 h3 = Some (u, h4) ∧ Equals ks5 s u h4 = Some true) ∧
    (∀ ks1 ks2 ks3 ks4 ks5 s h1 d1 h2 d2 h3 u h4 r,
       SymmetricDifference ks1 a b h = Some (s, h1) →
       Difference ks2 a b h1 = Some (d1, h2) →
       Difference ks3 b a h2 = Some (d2, h3) →
       Union ks4 d1 d2 h3 = Some (u, h4) → Equals ks5 s u h4 = Some r →
       r = true).
Proof.
  intros T ? ? h a b Ha Hb.
  assert (∀ ks1 ks2 ks3 ks4 ks5 s h1 d1 h2 d2 h3 u h4 r,
            SymmetricDifference ks1 a b h = Some (s, h1) →
            Difference ks2 a b h1 = Some (d1, h2) →
            Difference ks3 b a h2 = Some (d2, h3) →
            Union ks4 d1 d2 h3 = Some (u, h4) → Equals ks5 s u h4 = Some r →
            r = true) as HS.
  { intros ks1 ks2 ks3 ks4 ks5 s h1 d1 h2 d2 h3 u h4 r H1 H2 H3 H4.
    allocated H1. destruct (allocates_facts _ _ _ _ H1) as (N1 & Q1 & L1 & K1).
    allocated H2. destruct (allocates_facts _ _ _ _ H2) as (N2 & Q2 & L2 & K2).
    allocated H3. destruct (allocates_facts _ _ _ _ H3) as (N3 & Q3 & L3 & K3).
    allocated H4. destruct (allocates_facts _ _ _ _ H4) as (N4 & Q4 & L4 & K4).
    apply Equals_same_keys.
    rewrite Q4. repeat (rewrite (K4 _) by eauto 10).
    rewrite Q3. repeat (rewrite (K3 _) by eauto 10).
    rewrite Q2. repeat (rewrite (K2 _) by eauto 10).
    rewrite Q1. repeat (rewrite (K1 _) by eauto 10).
    done. }
  split; [|done].
  destruct (SymmetricDifference_total h a b Hb) as (ks1 & [s h1] & H1).
  pose proof H1 as A1. allocated A1.
  destruct (allocates_facts _ _ _ _ A1) as (N1 & _ & L1 & _).
  destruct (Difference_total h1 a b ltac:(eauto 10) ltac:(eauto 10))
    as (ks2 & [d1 h2] & H2).
  pose proof H2 as A2. allocated A2.
  destruct (allocates_facts _ _ _ _ A2) as (N2 & _ & L2 & _).
  destruct (Difference_total h2 b a ltac:(eauto 10) ltac:(eauto 10))
    as (ks3 & [d2 h3] & H3).
  pose proof H3 as A3. allocated A3.
  destruct (allocates_facts _ _ _ _ A3) as (N3 & _ & L3 & _).
  destruct (Union_total h3 d1 d2 N3) as (ks4 & [u h4] & H4).
  destruct (Equals_total h4 s u) as (ks5 & r & H5).
  exists ks1, ks2, ks3, ks4, ks5, s, h1, d1, h2, d2, h3, u, h4.
  split_and!; [done..|].
  by rewrite H5, (HS _ _ _ _ _ _ _ _ _ _ _ _ _ _ H1 H2 H3 H4 H5).
Qed.

Lemma X16_witness :
  let a := (two_sets [1; 2; 3] [3; 4; 5]).1.1 in
  let b := (two_sets [1; 2; 3] [3; 4; 5]).1.2 in
  let h := (two_sets [1; 2; 3] [3; 4; 5]).2 in
  (live h a ∧ live h b) ∧
  (r1 ← SymmetricDifference [5; 4; 3] a b h;
   r2 ← Difference [2; 3; 1] a b r1.2;
   r3 ← Difference [3; 4; 5] b a r2.2;
   r4 ← Union [5; 4] r2.1 r3.1 r3.2;
   Equals [1; 2; 4; 5] r1.1 r4.1 r4.2) = Some true ∧
  (∀ ks1 ks2 ks3 ks4 ks5 s h1 d1 h2 d2 h3 u h4 r,
     SymmetricDifference ks1 a b h = Some (s, h1) →
     Difference ks2 a b h1 = Some (d1, h2) →
     Difference ks3 b a h2 = Some (d2, h3) →
     Union ks4 d1 d2 h3 = Some (u, h4) → Equals ks5 s u h4 = Some r →
     r = true).
Proof.
  intros a b h.
  assert (live h a) as Ha by (vm_compute; eauto).
  assert (live h b) as Hb by (vm_compute; eauto).
  split; [done|]. split; [vm_compute; reflexivity|].
  apply (proj2 (X16_SymmetricDifference_as_Differences Z _ h a b Ha Hb)).
Defined.

(** X17: the results of the allocating operations are ordered as sets of
    elements: [A.Intersection(B).IsSubset(A)], [A.Difference(B).IsSubset(A)]
    and [A.IsSubset(A.Union(B))] are true.  Every call returns. *)
Theorem X17_results_between :
  ∀ (T : Type) `(Countable T) (h : gmap loc (gmap T ())) (a b : loc),
    live h a → live h b →
    ((∃ ks1 ks2 i h', Intersection ks1 a b h = Some (i, h') ∧
        IsSubset ks2 i a h' = Some true) ∧
     (∃ ks1 ks2 d h', Difference ks1 a b h = Some (d, h') ∧
        IsSubset ks2 d a h' = Some true) ∧
     (∃ ks1 ks2 u h', Union ks1 a b h = Some (u, h') ∧
        IsSubset ks2 a u h' = Some true)) ∧
    (∀ ks1 ks2 i h' r, Intersection ks1 a b h = Some (i, h') →
       IsSubset ks2 i a h' = Some r → r = true) ∧
    (∀ ks1 ks2 d h' r, Difference ks1 a b h = Some (d, h') →
       IsSubset ks2 d a h' = Some r → r = true) ∧
    (∀ ks1 ks2 u h' r, Union ks1 a b h = Some (u, h') →
       IsSubset ks2 a u h' = Some r → r = true).
Proof.
  intros T ? ? h a b Ha Hb.
  assert (∀ ks1 ks2 i h' r, Intersection ks1 a b h = Some (i, h') →
            IsSubset ks2 i a h' = Some r → r = true) as HI.
  { intros ks1 ks2 i h' r H1 ->%IsSubset_spec. allocated H1.
    destruct (allocates_facts _ _ _ _ H1) as (_ & Q & _ & K).
    apply bool_decide_eq_true. rewrite Q, (K a) by done. set_solver. }
  assert (∀ ks1 ks2 d h' r, Difference ks1 a b h = Some (d, h') →
            IsSubset ks2 d a h' = Some r → r = true) as HD.
  { intros ks1 ks2 d h' r H1 ->%IsSubset_spec. allocated H1.
    destruct (allocates_facts _ _ _ _ H1) as (_ & Q & _ & K).
    apply bool_decide_eq_true. rewrite Q, (K a) by done. set_solver. }
  assert (∀ ks1 ks2 u h' r, Union ks1 a b h = Some (u, h') →
            IsSubset ks2 a u h' = Some r → r = true) as HU.
  { intros ks1 ks2 u h' r H1 ->%IsSubset_spec. allocated H1.
    destruct (allocates_facts _ _ _ _ H1) as (_ & Q & _ & K).
    apply bool_decide_eq_true. rewrite Q, (K a) by done. set_solver. }
  split; [|done]. split_and!.
  - destruct (Intersection_total h a b Ha Hb) as (ks1 & [i h'] & H1).
    destruct (IsSubset_total h' i a) as (ks2 & r & H2).
    exists ks1, ks2, i, h'. by rewrite H2, (HI _ _ _ _ _ H1 H2).
  - destruct (Difference_total h a b Ha Hb) as (ks1 & [d h'] & H1).
    destruct (IsSubset_total h' d a) as (ks2 & r & H2).
    exists ks1, ks2, d, h'. by rewrite H2, (HD _ _ _ _ _ H1 H2).
  - destruct (Union_total h a b Hb) as (ks1 & [u h'] & H1).
    destruct (IsSubset_total h' a u) as (ks2 & r & H2).
    exists ks1, ks2, u, h'. by rewrite H2, (HU _ _ _ _ _ H1 H2).
Qed.

Lemma X17_witness :
  let a := (two_sets [1; 2; 3] [3; 4; 5]).1.1 in
  let b := (two_sets [1; 2; 3] [3; 4; 5]).1.2 in
  let h := (two_sets [1; 2; 3] [3; 4; 5]).2 in
  (live h a ∧ live h b) ∧
  (r1 ← Union [5; 4; 3] a b h; IsSubset [3; 2; 1] a r1.1 r1.2) = Some true ∧
  (∀ ks1 ks2 u h' r, Union ks1 a b h = Some (u, h') →
     IsSubset ks2 a u h' = Some r → r = true).
Proof.
  intros a b h.
  assert (live h a) as Ha by (vm_compute; eauto).
  assert (live h b) as Hb by (vm_compute; eauto).
  split; [done|]. split; [vm_compute; reflexivity|].
  apply (proj2 (proj2 (proj2 (X17_results_between Z _ h a b Ha Hb)))).
Defined.

(** X18: ranging over [All()] with a consumer that collects the keys it is
    handed and may stop at any of them.  The iteration ends; the keys
    collected are elements of the set, none twice, so at most [Len()] of
    them.  A consumer that never stops collects exactly what [Elements()]
    returns for the same order of iteration; a consumer that stops at once
    collects one element, or none when the set is empty. *)
Theorem X18_All_yields_elements_once :
  ∀ (T : Type) `(Countable T) (h : gmap loc (gmap T ())) (s : loc)
    (more : T → list T → bool),
    (∃ ks acc, All (λ _ : list T, h) s (collect more) ks [] = Some acc) ∧
    (∀ ks acc, All (λ _ : list T, h) s (collect more) ks [] = Some acc →
       NoDup acc ∧ (∀ x, x ∈ acc → Contains s x h = true) ∧
       (length acc ≤ Len s h)%nat) ∧
    (∀ ks acc,
       All (λ _ : list T, h) s (collect (λ _ _, true)) ks [] = Some acc ↔
       Elements ks s h = Some acc) ∧
    (∀ ks acc,
       All (λ _ : list T, h) s (collect (λ _ _, false)) ks [] = Some acc →
       length acc = Nat.min 1 (Len s h)).
Proof.
  intros T ? ? h s more. split_and!.
  - apply All_collect_total.
  - intros ks acc [Hnd Hin]%All_collect_result. split_and!.
    + done.
    + intros x Hx. apply Contains_true. by apply Hin.
    + rewrite Len_keys. unfold size, set_size. simpl.
      apply submseteq_length, NoDup_submseteq; [done|].
      intros x Hx. apply elem_of_elements. by apply Hin.
  - apply All_collect_all.
  - intros ks acc. rewrite Len_keys. unfold All, range.
    destruct ks as [|k ks]; simpl.
    + case_decide as Hd; [|done]. intros [= <-].
      fold (keys h s) in Hd. rewrite Hd, size_empty. done.
    + case_decide as Hk; [|done]. intros [= <-]. fold (keys h s) in Hk.
      assert (size (keys h s) ≠ 0%nat) as Hpos.
      { intros Hz%size_empty_inv. set_solver. }
      simpl. by destruct (size (keys h s)).
Qed.

Lemma X18_witness :
  let s := (one_set [1; 2; 3]).1 in
  let h := (one_set [1; 2; 3]).2 in
  All (λ _ : list Z, h) s (collect (λ k _, negb (k =? 1))) [3; 1] []
    = Some [3; 1] ∧
  NoDup [3; 1] ∧ (length [3; 1] ≤ Len s h)%nat.
Proof.
  intros s h.
  assert (All (λ _ : list Z, h) s (collect (λ k _, negb (k =? 1))) [3; 1] []
          = Some [3; 1]) as Hr by (vm_compute; reflexivity).
  split; [done|].
  destruct (proj1 (proj2 (X18_All_yields_elements_once Z _ h s
                            (λ k _, negb (k =? 1)))) [3; 1] [3; 1] Hr)
    as (Hnd & _ & Hlen).
  by split.
Defined.
